(** * cozeloop-go: trace exporters

    A shallow embedding of [internal/trace/multi_exporter.go] and
    [internal/trace/file_exporter.go], together with models of the
    header codec, the bounded queue and the span processor that the
    specification describes.

    Conventions used throughout:
    - a Go [string] is a sequence of bytes: Rocq's [string];
    - a Go [error] value is [option error], [None] being [nil];
    - a Go slice of pointers [[]*T] is [list (option T)], [None] being a
      [nil] element; the slice itself being [nil] or empty is [[]];
    - a Go interface value is [option I], [None] being the [nil]
      interface (an interface holding a typed nil pointer is not [nil]
      and is a [Some]);
    - [int], [int32] and [int64] are [Z], a [float64] is its bit
      pattern;
    - the logger ([logger.CtxErrorf], [logger.CtxDebugf]) writes to the
      process log only; its calls change neither a result nor any state
      modelled here and do not appear. *)

From Stdlib Require Import ZArith Ascii List Lia Bool.
From Stdlib Require String.
From stdpp Require Import base option list gmap strings pretty sorting.

Local Open Scope Z_scope.
Local Open Scope list_scope.

(* ================================================================== *)
(** * Go values shared by the exporters *)
(* ================================================================== *)

(** [error]: the two kinds of error values that reach the exporters.
    [errors.New msg] is [errorString msg]; the [os] package reports
    failures as [*fs.PathError{Op, Path, Err}] with [Err] an errno. *)
Inductive error : Type :=
| errorString (msg : string)
| PathError (op path : string) (errno : Z).

(** [context.Context]: only passed along by the exporters. *)
Inductive Context : Type :=
| Background.

(* ================================================================== *)
(** * float64 *)
(* ================================================================== *)

(** A [float64] is its IEEE-754 binary64 bit pattern
    ([math.Float64bits]); arithmetic rounds to nearest, ties to even. *)
Record float64 : Type := Float64frombits { Float64bits : Z }.

(** The value a [float64] stands for; [Finite neg m e] is
    [(-1)^neg * m * 2^e]. *)
Inductive float_value : Type :=
| NaN
| Inf (neg : bool)
| Finite (neg : bool) (m e : Z).

Definition float64_value (x : float64) : float_value :=
  let b := Float64bits x mod 2 ^ 64 in
  let neg := 0 <? b / 2 ^ 63 in
  let ex := (b / 2 ^ 52) mod 2 ^ 11 in
  let frac := b mod 2 ^ 52 in
  if ex =? 2047 then (if frac =? 0 then Inf neg else NaN)
  else if ex =? 0 then Finite neg frac (-1074)
  else Finite neg (2 ^ 52 + frac) (ex - 1075).

Definition float64_make (neg : bool) (ex frac : Z) : float64 :=
  Float64frombits ((if neg then 2 ^ 63 else 0) + ex * 2 ^ 52 + frac).

Definition float64_NaN : float64 := float64_make false 2047 (2 ^ 51).
Definition float64_Inf (neg : bool) : float64 := float64_make neg 2047 0.
Definition float64_zero (neg : bool) : float64 := float64_make neg 0 0.

(** [n / d] rounded to the nearest integer, ties to even. *)
Definition div_half_even (n d : Z) : Z :=
  let q := n / d in
  let r := n mod d in
  if (d <? 2 * r) || ((d =? 2 * r) && Z.odd q) then q + 1 else q.

(** The [float64] nearest to [(-1)^neg * num / den], for [0 <= num] and
    [0 < den]. *)
Definition float64_round (neg : bool) (num den : Z) : float64 :=
  if num =? 0 then float64_zero neg
  else
    let e0 := Z.log2 num - Z.log2 den - 52 in
    let scaled e := if 0 <=? e then num / (den * 2 ^ e) else (num * 2 ^ (- e)) / den in
    let q := scaled e0 in
    let e := if q <? 2 ^ 52 then e0 - 1 else if 2 ^ 53 <=? q then e0 + 1 else e0 in
    let e := Z.max e (-1074) in
    let m := if 0 <=? e then div_half_even num (den * 2 ^ e)
             else div_half_even (num * 2 ^ (- e)) den in
    let '(m, e) := if 2 ^ 53 <=? m then (m / 2, e + 1) else (m, e) in
    if 971 <? e then float64_Inf neg
    else if m <? 2 ^ 52 then float64_make neg 0 m
    else float64_make neg (e + 1075) (m - 2 ^ 52).

(** [float64(n)] for an integer [n]. *)
Definition float64_of_int (n : Z) : float64 := float64_round (n <? 0) (Z.abs n) 1.

(** [x + y] *)
Definition float64_add (x y : float64) : float64 :=
  match float64_value x, float64_value y with
  | NaN, _ | _, NaN => float64_NaN
  | Inf a, Inf b => if Bool.eqb a b then float64_Inf a else float64_NaN
  | Inf a, Finite _ _ _ | Finite _ _ _, Inf a => float64_Inf a
  | Finite a m1 e1, Finite b m2 e2 =>
      let e := Z.min e1 e2 in
      let s := (if a then - m1 else m1) * 2 ^ (e1 - e)
               + (if b then - m2 else m2) * 2 ^ (e2 - e) in
      if s =? 0 then float64_zero (a && b)
      else if 0 <=? e then float64_round (s <? 0) (Z.abs s * 2 ^ e) 1
      else float64_round (s <? 0) (Z.abs s) (2 ^ (- e))
  end.

(** [x / y] *)
Definition float64_div (x y : float64) : float64 :=
  match float64_value x, float64_value y with
  | NaN, _ | _, NaN => float64_NaN
  | Inf _, Inf _ => float64_NaN
  | Inf a, Finite b _ _ => float64_Inf (xorb a b)
  | Finite a _ _, Inf b => float64_zero (xorb a b)
  | Finite a m1 e1, Finite b m2 e2 =>
      if m2 =? 0 then (if m1 =? 0 then float64_NaN else float64_Inf (xorb a b))
      else if 0 <=? e1 - e2 then float64_round (xorb a b) (m1 * 2 ^ (e1 - e2)) m2
      else float64_round (xorb a b) m1 (m2 * 2 ^ (e2 - e1))
  end.

Fixpoint zero_digits (n : nat) : string :=
  match n with O => EmptyString | S n => String "0" (zero_digits n) end.

(** [fmt.Sprintf] with the verb [%.Nf]: the exact decimal expansion of
    the value, rounded to [prec] digits after the point, ties to even. *)
Definition fmt_f (prec : nat) (x : float64) : string :=
  match float64_value x with
  | NaN => "NaN"
  | Inf neg => if neg then "-Inf" else "+Inf"
  | Finite neg m e =>
      let p := 10 ^ Z.of_nat prec in
      let n := if 0 <=? e then m * 2 ^ e * p else div_half_even (m * p) (2 ^ (- e)) in
      let frac := pretty (n mod p) in
      (if neg then "-" else EmptyString) +:+ pretty (n / p)
      +:+ match prec with
          | O => EmptyString
          | S _ => "." +:+ zero_digits (prec - String.length frac) +:+ frac
          end
  end.

Module entity.

(** [entity.UploadSpan]: the fields [FileExporter] reads.  Go maps are
    association lists without duplicate keys, listed in the order in
    which a [range] over the map yields them (an order the runtime
    chooses). *)
Record UploadSpan : Type := {
  StartedATMicros : Z;
  LogID : string;
  SpanID : string;
  ParentID : string;
  TraceID : string;
  DurationMicros : Z;
  ServiceName : string;
  WorkspaceID : string;
  SpanName : string;
  SpanType : string;
  StatusCode : Z;
  Input : string;
  Output : string;
  ObjectStorage : string;
  SystemTagsString : list (string * string);
  SystemTagsLong : list (string * Z);
  SystemTagsDouble : list (string * float64);
  TagsString : list (string * string);
  TagsLong : list (string * Z);
  TagsDouble : list (string * float64);
  TagsBool : list (string * bool)
}.

(** [entity.UploadFile]. *)
Record UploadFile : Type := {
  TosKey : string;
  Data : string;
  UploadType : string;
  TagKey : string;
  Name : string;
  FileType : string;
  SpaceID : string
}.

End entity.
Import entity.

(* ================================================================== *)
(** * The Exporter interface and MultiExporter *)
(* ================================================================== *)

(** [type Exporter interface { ExportSpans; ExportFiles }].  An
    implementation acts on a world [W] (the file system, a server, the
    fields of a test double) and returns its [error]. *)
Record Exporter (W : Type) : Type := {
  exp_ExportSpans : Context -> list (option UploadSpan) -> W -> option error * W;
  exp_ExportFiles : Context -> list (option UploadFile) -> W -> option error * W
}.
Arguments exp_ExportSpans {W} _ _ _ _.
Arguments exp_ExportFiles {W} _ _ _ _.

(** One dynamic method call on a wrapped exporter, as observed from
    outside: which exporter, and the arguments it received. *)
Inductive Call (W : Type) : Type :=
| CallExportSpans (e : Exporter W) (ctx : Context) (spans : list (option UploadSpan))
| CallExportFiles (e : Exporter W) (ctx : Context) (files : list (option UploadFile)).
Arguments CallExportSpans {W} _ _ _.
Arguments CallExportFiles {W} _ _ _.

(** The state a [MultiExporter] method runs in: the world of its
    children and the calls made on them so far. *)
Record Run (W : Type) : Type := { world : W; calls : list (Call W) }.
Arguments Build_Run {W} _ _.
Arguments world {W} _.
Arguments calls {W} _.

(** A Go call either returns or panics. *)
Inductive outcome (A : Type) : Type :=
| Returned (a : A)
| Panicked.
Arguments Returned {A} _.
Arguments Panicked {A}.

Definition M (W A : Type) : Type := Run W -> outcome A * Run W.

Definition ret {W A} (a : A) : M W A := fun s => (Returned a, s).

Definition bind {W A B} (m : M W A) (k : A -> M W B) : M W B :=
  fun s => match m s with
           | (Returned a, s') => k a s'
           | (Panicked, s') => (Panicked, s')
           end.

Notation "'let!' x ':=' m 'in' k" := (bind m (fun x => k))
  (at level 10, x name, m at level 100, k at level 200).

(** [exporter.ExportSpans(ctx, spans)] on an interface value: a nil
    interface panics, anything else dispatches to the implementation. *)
Definition call_ExportSpans {W} (exporter : option (Exporter W)) (ctx : Context)
    (spans : list (option UploadSpan)) : M W (option error) :=
  fun s =>
    match exporter with
    | None => (Panicked, s)
    | Some e =>
        let '(err, w) := exp_ExportSpans e ctx spans (world s) in
        (Returned err, {| world := w; calls := calls s ++ [CallExportSpans e ctx spans] |})
    end.

Definition call_ExportFiles {W} (exporter : option (Exporter W)) (ctx : Context)
    (files : list (option UploadFile)) : M W (option error) :=
  fun s =>
    match exporter with
    | None => (Panicked, s)
    | Some e =>
        let '(err, w) := exp_ExportFiles e ctx files (world s) in
        (Returned err, {| world := w; calls := calls s ++ [CallExportFiles e ctx files] |})
    end.

(** [type MultiExporter struct { exporters []Exporter }] *)
Record MultiExporter (W : Type) : Type := { exporters : list (option (Exporter W)) }.
Arguments Build_MultiExporter {W} _.
Arguments exporters {W} _.

(** [NewMultiExporter(exporters ...Exporter)]: the loop appends every
    non-nil argument to [validExporters]. *)
Definition NewMultiExporter {W} (args : list (option (Exporter W))) : MultiExporter W :=
  let validExporters :=
    fold_left (fun valid e => match e with
                              | Some _ => valid ++ [e]
                              | None => valid
                              end) args [] in
  {| exporters := validExporters |}.

(** The body of [for _, exporter := range m.exporters] in [ExportSpans],
    with the loop variable [firstErr] threaded through.  A failing child
    is logged and the loop goes on. *)
Fixpoint range_ExportSpans {W} (ctx : Context) (spans : list (option UploadSpan))
    (es : list (option (Exporter W))) (firstErr : option error) : M W (option error) :=
  match es with
  | [] => ret firstErr
  | exporter :: rest =>
      let! err := call_ExportSpans exporter ctx spans in
      let firstErr :=
        match err with
        | Some _ => match firstErr with None => err | Some _ => firstErr end
        | None => firstErr
        end in
      range_ExportSpans ctx spans rest firstErr
  end.

Definition MultiExporter_ExportSpans {W} (m : MultiExporter W) (ctx : Context)
    (spans : list (option UploadSpan)) : M W (option error) :=
  if (length (exporters m) =? 0)%nat then ret None
  else range_ExportSpans ctx spans (exporters m) None.

Fixpoint range_ExportFiles {W} (ctx : Context) (files : list (option UploadFile))
    (es : list (option (Exporter W))) (firstErr : option error) : M W (option error) :=
  match es with
  | [] => ret firstErr
  | exporter :: rest =>
      let! err := call_ExportFiles exporter ctx files in
      let firstErr :=
        match err with
        | Some _ => match firstErr with None => err | Some _ => firstErr end
        | None => firstErr
        end in
      range_ExportFiles ctx files rest firstErr
  end.

Definition MultiExporter_ExportFiles {W} (m : MultiExporter W) (ctx : Context)
    (files : list (option UploadFile)) : M W (option error) :=
  if (length (exporters m) =? 0)%nat then ret None
  else range_ExportFiles ctx files (exporters m) None.

(** [AddExporter]: the receiver is updated in place; the updated value
    is returned here. *)
Definition AddExporter {W} (m : MultiExporter W) (exporter : option (Exporter W))
    : MultiExporter W :=
  match exporter with
  | Some _ => {| exporters := exporters m ++ [exporter] |}
  | None => m
  end.

Definition ExporterCount {W} (m : MultiExporter W) : Z :=
  Z.of_nat (length (exporters m)).

(* ================================================================== *)
(** * The operating system, as far as the file exporter uses it *)
(* ================================================================== *)

Module os.

(** Flags of [os.OpenFile] (their values on Linux). *)
Definition O_RDONLY : Z := 0.
Definition O_WRONLY : Z := 1.
Definition O_RDWR : Z := 2.
Definition O_CREATE : Z := 64.
Definition O_EXCL : Z := 128.
Definition O_TRUNC : Z := 512.
Definition O_APPEND : Z := 1024.

Definition ENOENT : Z := 2.
Definition EBADF : Z := 9.
Definition EEXIST : Z := 17.
Definition ENOTDIR : Z := 20.
Definition EISDIR : Z := 21.

Definition has_flag (flag bit : Z) : bool := negb (Z.land flag bit =? 0).
Definition access_mode (flag : Z) : Z := Z.land flag 3.

(** An open file description: the path it was opened on, the flags
    and the current offset. *)
Record open_file : Type := { of_path : string; of_flag : Z; of_offset : nat }.

(** [*os.File], identified by its descriptor. *)
Definition File : Type := nat.

(** What the environment does to one call: let it proceed, fail it
    with an errno (permissions, a missing directory, a full disk ...),
    or, for a write, accept only the first [n] bytes and then fail. *)
Inductive fault : Type :=
| Proceed
| Fail (errno : Z)
| Short (n : nat) (errno : Z).

Inductive syscall : Type :=
| SysMkdirAll (path : string) (perm : Z)
| SysOpenFile (name : string) (flag perm : Z)
| SysWriteString (f : File) (data : string)
| SysClose (f : File).

Record event : Type := { ev_call : syscall; ev_err : option error }.

(** The state of the system: regular files with their contents,
    directories, the descriptor table, the faults the environment
    has in store for the coming calls (none when the list is empty)
    and the calls made so far with their results. *)
Record OS : Type := {
  files : gmap string string;
  dirs : gset string;
  open_files : gmap nat open_file;
  next_fd : nat;
  faults : list fault;
  trace : list event
}.

Definition next_fault (s : OS) : fault * OS :=
  match faults s with
  | [] => (Proceed, s)
  | f :: rest =>
      (f, {| files := files s; dirs := dirs s; open_files := open_files s;
             next_fd := next_fd s; faults := rest; trace := trace s |})
  end.

Definition log (c : syscall) (err : option error) (s : OS) : OS :=
  {| files := files s; dirs := dirs s; open_files := open_files s;
     next_fd := next_fd s; faults := faults s;
     trace := trace s ++ [{| ev_call := c; ev_err := err |}] |}.

Definition set_files (fs : gmap string string) (s : OS) : OS :=
  {| files := fs; dirs := dirs s; open_files := open_files s;
     next_fd := next_fd s; faults := faults s; trace := trace s |}.

Definition set_dirs (ds : gset string) (s : OS) : OS :=
  {| files := files s; dirs := ds; open_files := open_files s;
     next_fd := next_fd s; faults := faults s; trace := trace s |}.

Definition set_open_files (t : gmap nat open_file) (n : nat) (s : OS) : OS :=
  {| files := files s; dirs := dirs s; open_files := t;
     next_fd := n; faults := faults s; trace := trace s |}.

(** [os.MkdirAll(path, perm)]: on success [path] is a directory. *)
Definition MkdirAll (path : string) (perm : Z) (s : OS) : option error * OS :=
  let '(f, s) := next_fault s in
  let c := SysMkdirAll path perm in
  match f with
  | Fail errno | Short _ errno =>
      let err := Some (PathError "mkdir" path errno) in (err, log c err s)
  | Proceed =>
      match files s !! path with
      | Some _ =>
          let err := Some (PathError "mkdir" path ENOTDIR) in (err, log c err s)
      | None => (None, log c None (set_dirs ({[path]} ∪ dirs s) s))
      end
  end.

(** [os.OpenFile(name, flag, perm)]. *)
Definition OpenFile (name : string) (flag perm : Z) (s : OS)
    : (File + error) * OS :=
  let '(f, s) := next_fault s in
  let c := SysOpenFile name flag perm in
  let failed errno :=
    let err := PathError "open" name errno in (inr err, log c (Some err) s) in
  let opened (s : OS) :=
    let fd := next_fd s in
    let entry := {| of_path := name; of_flag := flag; of_offset := 0 |} in
    (inl fd, log c None (set_open_files (<[fd := entry]> (open_files s)) (S fd) s)) in
  match f with
  | Fail errno | Short _ errno => failed errno
  | Proceed =>
      if decide (name ∈ dirs s) then failed EISDIR
      else match files s !! name with
           | Some content =>
               if has_flag flag O_CREATE && has_flag flag O_EXCL then failed EEXIST
               else if has_flag flag O_TRUNC && negb (access_mode flag =? O_RDONLY)
               then opened (set_files (<[name := EmptyString]> (files s)) s)
               else opened s
           | None =>
               if has_flag flag O_CREATE
               then opened (set_files (<[name := EmptyString]> (files s)) s)
               else failed ENOENT
           end
  end.

(** The first [n] bytes of [s], and [s] without them. *)
Definition take (n : nat) (s : string) : string := String.substring 0 n s.
Definition drop (n : nat) (s : string) : string :=
  String.substring n (String.length s - n) s.

Fixpoint zeros (n : nat) : string :=
  match n with O => EmptyString | S n => String Ascii.zero (zeros n) end.

(** Writing [data] at offset [off] of a file holding [content]; a gap
    past the end reads as zero bytes. *)
Definition write_at (off : nat) (data content : string) : string :=
  let content := (content +:+ zeros (off - String.length content))%string in
  (take off content +:+ data +:+ drop (off + String.length data) content)%string.

(** [File.WriteString(data)] on an [*os.File]: returns the number of bytes
    written and an error when that is less than [len(data)].  With
    [O_APPEND] every write goes to the end of the file. *)
Definition WriteString (fd : File) (data : string) (s : OS)
    : (Z * option error) * OS :=
  let '(f, s) := next_fault s in
  let c := SysWriteString fd data in
  match open_files s !! fd with
  | None =>
      let err := Some (PathError "write" EmptyString EBADF) in
      ((0, err), log c err s)
  | Some entry =>
      let name := of_path entry in
      let failed errno := Some (PathError "write" name errno) in
      let put (bytes : string) (s : OS) : OS :=
        let content := default EmptyString (files s !! name) in
        let content' :=
          if has_flag (of_flag entry) O_APPEND then (content +:+ bytes)%string
          else write_at (of_offset entry) bytes content in
        let off' :=
          if has_flag (of_flag entry) O_APPEND then String.length content'
          else (of_offset entry + String.length bytes)%nat in
        let entry' := {| of_path := name; of_flag := of_flag entry;
                         of_offset := off' |} in
        set_open_files (<[fd := entry']> (open_files s)) (next_fd s)
          (set_files (<[name := content']> (files s)) s) in
      if access_mode (of_flag entry) =? O_RDONLY
      then ((0, failed EBADF), log c (failed EBADF) s)
      else match f with
           | Fail errno => ((0, failed errno), log c (failed errno) s)
           | Short n errno =>
               let bytes := take n data in
               ((Z.of_nat (String.length bytes), failed errno),
                log c (failed errno) (put bytes s))
           | Proceed =>
               ((Z.of_nat (String.length data), None), log c None (put data s))
           end
  end.

(** [File.Close()] on an [*os.File]: the descriptor is released even when the
    call reports an error. *)
Definition Close (fd : File) (s : OS) : option error * OS :=
  let '(f, s) := next_fault s in
  let c := SysClose fd in
  match open_files s !! fd with
  | None =>
      let err := Some (PathError "close" EmptyString EBADF) in (err, log c err s)
  | Some entry =>
      let err := match f with
                 | Fail errno | Short _ errno =>
                     Some (PathError "close" (of_path entry) errno)
                 | Proceed => None
                 end in
      (err, log c err (set_open_files (delete fd (open_files s)) (next_fd s) s))
  end.

(** [os.ReadFile(name)], for inspection: the contents of a file. *)
Definition ReadFile (name : string) (s : OS) : option string := files s !! name.

End os.

(* ================================================================== *)
(** * FileExporter: rendering a span as markdown *)
(* ================================================================== *)

(** What the exporter takes from Go's standard library and from the
    machine it runs on: path cleaning and the local time zone. *)
Class Platform : Type := {
  (** [filepath.Dir(path)] *)
  filepath_Dir : string -> string;
  (** [time.UnixMicro(us).Format(layout)], in the local time zone *)
  time_UnixMicro_Format : Z -> string -> string
}.

Definition LF : string := String "010" EmptyString.
Definition CR : ascii := "013"%char.

(** The two bytes of the UTF-8 encoding of the micro sign. *)
Definition micro_sign : string := String "206" (String "188" EmptyString).

(** Arithmetic on [int64] wraps around. *)
Definition int64 (z : Z) : Z := (z + 2 ^ 63) mod 2 ^ 64 - 2 ^ 63.

(** [fmt] verbs [%d] and [%t]. *)
Definition fmt_d (z : Z) : string := pretty z.
Definition fmt_t (b : bool) : string := if b then "true" else "false".

(** [strings.ReplaceAll(s, old, new)] for a one-byte [old]. *)
Fixpoint ReplaceAll (s : string) (old : ascii) (new : string) : string :=
  match s with
  | EmptyString => EmptyString
  | String c rest =>
      if Ascii.eqb c old then new +:+ ReplaceAll rest old new
      else String c (ReplaceAll rest old new)
  end.

(** [escapeMarkdown] escapes special markdown characters in table cells. *)
Definition escapeMarkdown (s : string) : string :=
  let s := ReplaceAll s "|"%char "\|" in
  let s := ReplaceAll s "010"%char " " in
  let s := ReplaceAll s CR EmptyString in
  s.

(** [truncateString] truncates a string to [maxLen] bytes. *)
Definition truncateString (s : string) (maxLen : Z) : string :=
  if Z.of_nat (String.length s) <=? maxLen then s
  else String.substring 0 (Z.to_nat maxLen) s +:+ "... (truncated)".

(** [sort.Strings]: ascending, bytewise. *)
Fixpoint sort_insert (k : string) (sorted : list string) : list string :=
  match sorted with
  | [] => [k]
  | x :: rest => if String.leb k x then k :: sorted else x :: sort_insert k rest
  end.

Definition sort_Strings (keys : list string) : list string :=
  fold_right sort_insert [] keys.

(** [tags[k]]: the zero value when [k] is absent. *)
Fixpoint map_index {V} (zero : V) (tags : list (string * V)) (k : string) : V :=
  match tags with
  | [] => zero
  | (k', v) :: rest => if String.eqb k' k then v else map_index zero rest k
  end.

(** [writeTagsToTable] writes string tags to the table in sorted order. *)
Definition writeTagsToTable (sb : string) (tags : list (string * string)) : string :=
  if (length tags =? 0)%nat then sb
  else
    let keys := fold_left (fun keys kv => keys ++ [kv.1]) tags [] in
    let keys := sort_Strings keys in
    fold_left
      (fun sb k =>
         let v := map_index EmptyString tags k in
         let displayValue := truncateString v 100 in
         sb +:+ "| " +:+ escapeMarkdown k +:+ " | " +:+ escapeMarkdown displayValue
            +:+ " |" +:+ LF)
      keys sb.

Definition Millisecond : Z := 1000000.
Definition Second : Z := 1000000000.
Definition Minute : Z := 60000000000.

(** [time.Duration] methods. *)
Definition Duration_Microseconds (d : Z) : Z := Z.quot d 1000.

Definition Duration_Seconds (d : Z) : float64 :=
  let sec := Z.quot d Second in
  let nsec := Z.rem d Second in
  float64_add (float64_of_int sec)
    (float64_div (float64_of_int nsec) (float64_of_int 1000000000)).

Definition Duration_Minutes (d : Z) : float64 :=
  let min := Z.quot d Minute in
  let nsec := Z.rem d Minute in
  float64_add (float64_of_int min)
    (float64_div (float64_of_int nsec) (float64_of_int 60000000000)).

(** [formatDuration] formats a duration in human readable format. *)
Definition formatDuration (d : Z) : string :=
  if d <? Millisecond then fmt_d (Duration_Microseconds d) +:+ micro_sign +:+ "s"
  else if d <? Second then
    fmt_f 2 (float64_div (float64_of_int (Duration_Microseconds d))
                         (float64_of_int 1000)) +:+ "ms"
  else if d <? Minute then fmt_f 3 (Duration_Seconds d) +:+ "s"
  else fmt_f 2 (Duration_Minutes d) +:+ "m".

(** [range] over a map of tags, one table row per entry. *)
Definition write_rows {V} (fmt : V -> string) (sb : string)
    (tags : list (string * V)) : string :=
  fold_left
    (fun sb kv => sb +:+ "| " +:+ escapeMarkdown kv.1 +:+ " | " +:+ fmt kv.2
                     +:+ " |" +:+ LF)
    tags sb.

(** [spanToMarkdown] converts a span to markdown format; [sb] is the
    [strings.Builder]. *)
Definition spanToMarkdown `{Platform} (span : UploadSpan) : string :=
  let sb := EmptyString in
  let sb := sb +:+ "# Trace: " +:+ TraceID span +:+ LF +:+ LF in
  let sb := sb +:+ "## Span: " +:+ SpanName span +:+ LF +:+ LF in
  let sb := sb +:+ "- **Type:** " +:+ SpanType span +:+ LF in
  let sb := sb +:+ "- **Span ID:** " +:+ SpanID span +:+ LF in
  let sb := sb +:+ "- **Parent ID:** " +:+ ParentID span +:+ LF in
  let startTime := time_UnixMicro_Format (StartedATMicros span)
                     "2006-01-02 15:04:05.000" in
  let sb := sb +:+ "- **Start Time:** " +:+ startTime +:+ LF in
  let duration := int64 (DurationMicros span * 1000) in
  let sb := sb +:+ "- **Duration:** " +:+ formatDuration duration +:+ LF in
  let statusText := if negb (StatusCode span =? 0) then "ERROR" else "OK" in
  let sb := sb +:+ "- **Status:** " +:+ statusText +:+ " ("
               +:+ fmt_d (StatusCode span) +:+ ")" +:+ LF in
  let sb := if negb (String.eqb (ServiceName span) EmptyString)
            then sb +:+ "- **Service:** " +:+ ServiceName span +:+ LF else sb in
  let sb := if negb (String.eqb (WorkspaceID span) EmptyString)
            then sb +:+ "- **Workspace ID:** " +:+ WorkspaceID span +:+ LF else sb in
  let sb := if negb (String.eqb (LogID span) EmptyString)
            then sb +:+ "- **Log ID:** " +:+ LogID span +:+ LF else sb in
  let sb := sb +:+ LF in
  let sb := if negb (String.eqb (Input span) EmptyString)
            then sb +:+ "### Input" +:+ LF +:+ LF +:+ "```" +:+ LF
                    +:+ truncateString (Input span) 2000
                    +:+ LF +:+ "```" +:+ LF +:+ LF
            else sb in
  let sb := if negb (String.eqb (Output span) EmptyString)
            then sb +:+ "### Output" +:+ LF +:+ LF +:+ "```" +:+ LF
                    +:+ truncateString (Output span) 2000
                    +:+ LF +:+ "```" +:+ LF +:+ LF
            else sb in
  let hasTags := (0 <? length (TagsString span))%nat
                 || (0 <? length (TagsLong span))%nat
                 || (0 <? length (TagsDouble span))%nat
                 || (0 <? length (TagsBool span))%nat in
  let sb :=
    if hasTags then
      let sb := sb +:+ "### Tags" +:+ LF +:+ LF in
      let sb := sb +:+ "| Key | Value |" +:+ LF in
      let sb := sb +:+ "|-----|-------|" +:+ LF in
      let sb := writeTagsToTable sb (TagsString span) in
      let sb := write_rows fmt_d sb (TagsLong span) in
      let sb := write_rows (fmt_f 4) sb (TagsDouble span) in
      let sb := write_rows fmt_t sb (TagsBool span) in
      sb +:+ LF
    else sb in
  let hasSystemTags := (0 <? length (SystemTagsString span))%nat
                       || (0 <? length (SystemTagsLong span))%nat
                       || (0 <? length (SystemTagsDouble span))%nat in
  let sb :=
    if hasSystemTags then
      let sb := sb +:+ "### System Tags" +:+ LF +:+ LF in
      let sb := sb +:+ "| Key | Value |" +:+ LF in
      let sb := sb +:+ "|-----|-------|" +:+ LF in
      let sb := writeTagsToTable sb (SystemTagsString span) in
      let sb := write_rows fmt_d sb (SystemTagsLong span) in
      let sb := write_rows (fmt_f 4) sb (SystemTagsDouble span) in
      sb +:+ LF
    else sb in
  let sb := sb +:+ "---" +:+ LF +:+ LF in
  sb.

(* ================================================================== *)
(** * FileExporter *)
(* ================================================================== *)

Definition DefaultLocalExportPath : string := "./cozeloop_traces.md".

(** [type FileExporter struct { filePath string; mu sync.Mutex }].  The
    mutex serialises calls; one call at a time is what is modelled, so
    [Lock] and [Unlock] do not appear. *)
Record FileExporter : Type := { filePath : string }.

Definition NewFileExporter (filePath : string) : FileExporter :=
  let filePath := if String.eqb filePath EmptyString
                  then DefaultLocalExportPath else filePath in
  {| filePath := filePath |}.

(** The loop [for _, span := range spans] of [ExportSpans]: a nil span
    is skipped, the first failing write ends the call. *)
Fixpoint write_spans `{Platform} (f : os.File) (spans : list (option UploadSpan))
    (s : os.OS) : option error * os.OS :=
  match spans with
  | [] => (None, s)
  | None :: rest => write_spans f rest s
  | Some span :: rest =>
      let md := spanToMarkdown span in
      let '((_, err), s) := os.WriteString f md s in
      match err with
      | Some _ => (err, s)
      | None => write_spans f rest s
      end
  end.

(** [ExportSpans] writes spans to the markdown file. *)
Definition FileExporter_ExportSpans `{Platform} (e : FileExporter) (ctx : Context)
    (spans : list (option UploadSpan)) (s : os.OS) : option error * os.OS :=
  if (length spans =? 0)%nat then (None, s)
  else
    let dir := filepath_Dir (filePath e) in
    let '(err, s) :=
      if negb (String.eqb dir EmptyString) && negb (String.eqb dir ".")
      then os.MkdirAll dir 493 s      (* 0755 *)
      else (None, s) in
    match err with
    | Some _ => (err, s)
    | None =>
        let '(f, s) :=
          os.OpenFile (filePath e)
            (Z.lor (Z.lor os.O_APPEND os.O_CREATE) os.O_WRONLY) 420 s in  (* 0644 *)
        match f with
        | inr err => (Some err, s)
        | inl f =>
            let '(err, s) := write_spans f spans s in
            let '(_, s) := os.Close f s in      (* defer f.Close() *)
            (err, s)
        end
    end.

(** [ExportFiles] is a no-op for the file exporter. *)
Definition FileExporter_ExportFiles (e : FileExporter) (ctx : Context)
    (files : list (option UploadFile)) (s : os.OS) : option error * os.OS :=
  (None, s).

(** A [*FileExporter] implements [Exporter]; its world is the file
    system. *)
Definition FileExporter_Exporter `{Platform} (e : FileExporter) : Exporter os.OS :=
  {| exp_ExportSpans := FileExporter_ExportSpans e;
     exp_ExportFiles := FileExporter_ExportFiles e |}.

(* ================================================================== *)
(** * Test doubles *)
(* ================================================================== *)

(** [mockExporter] of [multi_exporter_test.go]. *)
Record mockExporter : Type := {
  exportSpansCalled : bool;
  exportFilesCalled : bool;
  exportSpansErr : option error;
  exportFilesErr : option error;
  exportedSpans : list (option UploadSpan);
  exportedFiles : list (option UploadFile)
}.

(** [&mockExporter{exportSpansErr: ..., exportFilesErr: ...}] *)
Definition new_mock (spansErr filesErr : option error) : mockExporter :=
  {| exportSpansCalled := false; exportFilesCalled := false;
     exportSpansErr := spansErr; exportFilesErr := filesErr;
     exportedSpans := []; exportedFiles := [] |}.

(** The mocks live on a heap, addressed by [nat]; the methods have a
    pointer receiver and update the mock in place. *)
Definition mock_ExportSpans (p : nat) (ctx : Context)
    (spans : list (option UploadSpan)) (h : gmap nat mockExporter)
    : option error * gmap nat mockExporter :=
  match h !! p with
  | None => (None, h)
  | Some m =>
      let m' := {| exportSpansCalled := true;
                   exportFilesCalled := exportFilesCalled m;
                   exportSpansErr := exportSpansErr m;
                   exportFilesErr := exportFilesErr m;
                   exportedSpans := spans;
                   exportedFiles := exportedFiles m |} in
      (exportSpansErr m, <[p := m']> h)
  end.

Definition mock_ExportFiles (p : nat) (ctx : Context)
    (files : list (option UploadFile)) (h : gmap nat mockExporter)
    : option error * gmap nat mockExporter :=
  match h !! p with
  | None => (None, h)
  | Some m =>
      let m' := {| exportSpansCalled := exportSpansCalled m;
                   exportFilesCalled := true;
                   exportSpansErr := exportSpansErr m;
                   exportFilesErr := exportFilesErr m;
                   exportedSpans := exportedSpans m;
                   exportedFiles := files |} in
      (exportFilesErr m, <[p := m']> h)
  end.

Definition mock (p : nat) : Exporter (gmap nat mockExporter) :=
  {| exp_ExportSpans := mock_ExportSpans p; exp_ExportFiles := mock_ExportFiles p |}.

(** The heap of the test with two failing exporters. *)
Definition two_failing_mocks : gmap nat mockExporter :=
  <[1%nat := new_mock (Some (errorString "first error")) None]>
    (<[2%nat := new_mock (Some (errorString "second error")) None]> ∅).

(** [&entity.UploadSpan{SpanID: id}] and [&entity.UploadFile{TosKey: k}] *)
Definition span_with_id (id : string) : UploadSpan :=
  {| StartedATMicros := 0; LogID := EmptyString; SpanID := id;
     ParentID := EmptyString; TraceID := EmptyString; DurationMicros := 0;
     ServiceName := EmptyString; WorkspaceID := EmptyString;
     SpanName := EmptyString; SpanType := EmptyString; StatusCode := 0;
     Input := EmptyString; Output := EmptyString; ObjectStorage := EmptyString;
     SystemTagsString := []; SystemTagsLong := []; SystemTagsDouble := [];
     TagsString := []; TagsLong := []; TagsDouble := []; TagsBool := [] |}.

Definition file_with_key (k : string) : UploadFile :=
  {| TosKey := k; Data := EmptyString; UploadType := EmptyString;
     TagKey := EmptyString; Name := EmptyString; FileType := EmptyString;
     SpaceID := EmptyString |}.

(** A platform to run examples on: paths are cut at their last slash,
    times print as their count of microseconds. *)
Fixpoint last_slash (s : string) (i : nat) : option nat :=
  match s with
  | EmptyString => None
  | String c rest =>
      match last_slash rest (S i) with
      | Some j => Some j
      | None => if Ascii.eqb c "/" then Some i else None
      end
  end.

Definition sample_platform : Platform :=
  {| filepath_Dir := fun path =>
       match last_slash path 0 with
       | None => "."
       | Some O => "/"
       | Some i => String.substring 0 i path
       end;
     time_UnixMicro_Format := fun us _ => pretty us |}.

(** A file system holding one trace file, on which the second call
    will accept five bytes only. *)
Definition traces_OS : os.OS :=
  {| os.files := {[ "traces.md" := "# old" +:+ LF ]}; os.dirs := ∅;
     os.open_files := ∅; os.next_fd := 3;
     os.faults := [os.Proceed; os.Short 5 28]; os.trace := [] |}.

(** The empty file system with the given faults in store. *)
Definition faulty_OS (faults : list os.fault) : os.OS :=
  {| os.files := ∅; os.dirs := ∅; os.open_files := ∅; os.next_fd := 3;
     os.faults := faults; os.trace := [] |}.

(** A file system with nothing in it, and no fault in store. *)
Definition empty_OS : os.OS :=
  {| os.files := ∅; os.dirs := ∅; os.open_files := ∅; os.next_fd := 3;
     os.faults := []; os.trace := [] |}.

(** ** What a caller of the children observes *)

(** The children's operations run one after the other, each on the world
    the previous one left; their results are collected in order. *)
Fixpoint results_in_order {W} (ops : list (W -> option error * W)) (w : W)
    : list (option error) * W :=
  match ops with
  | [] => ([], w)
  | op :: rest =>
      let '(r, w1) := op w in
      let '(rs, w2) := results_in_order rest w1 in
      (r :: rs, w2)
  end.

(** The first non-nil error of a list of results, [nil] if none. *)
Fixpoint first_error (rs : list (option error)) : option error :=
  match rs with
  | [] => None
  | Some e :: _ => Some e
  | None :: rest => first_error rest
  end.

(** The non-nil arguments, in their original order. *)
Definition non_nil {A} (args : list (option A)) : list (option A) :=
  List.filter (fun a => match a with Some _ => true | None => false end) args.

(** How many of the arguments are not nil. *)
Fixpoint count_non_nil {A} (args : list (option A)) : nat :=
  match args with
  | [] => O
  | Some _ :: rest => S (count_non_nil rest)
  | None :: rest => count_non_nil rest
  end.

(** The receiver after a sequence of [AddExporter] calls. *)
Definition AddExporters {W} (m : MultiExporter W) (added : list (option (Exporter W)))
    : MultiExporter W :=
  fold_left AddExporter added m.

(** ** What the file exporter is expected to do *)

(** The markdown of the non-nil spans of a batch, in order. *)
Definition rendered `{Platform} (spans : list (option UploadSpan)) : list string :=
  omap (fun span => spanToMarkdown <$> span) spans.

(** The markdown of a whole batch: what a successful call appends. *)
Definition markdown_of `{Platform} (spans : list (option UploadSpan)) : string :=
  fold_right String.append EmptyString (rendered spans).

(** The file-system operations whose failure [ExportSpans] reports. *)
Inductive fs_op : Type :=
| OpMkdirAll (dir : string) (perm : Z)
| OpOpenFile (name : string) (flag perm : Z)
| OpWriteString (data : string).

Definition op_of_syscall (c : os.syscall) : option fs_op :=
  match c with
  | os.SysMkdirAll dir perm => Some (OpMkdirAll dir perm)
  | os.SysOpenFile name flag perm => Some (OpOpenFile name flag perm)
  | os.SysWriteString _ data => Some (OpWriteString data)
  | os.SysClose _ => None
  end.

(** Directory creation (unless the directory is the current one), then
    opening the file for appending, then one write per non-nil span. *)
Definition planned `{Platform} (e : FileExporter) (spans : list (option UploadSpan))
    : list fs_op :=
  let dir := filepath_Dir (filePath e) in
  (if decide (dir = EmptyString \/ dir = ".") then [] else [OpMkdirAll dir 493])
  ++ [OpOpenFile (filePath e) 1089 420]
  ++ map OpWriteString (rendered spans).

(** The calls a run added to the trace, and among them the operations
    above with their results. *)
Definition new_events (before after : os.OS) : list os.event :=
  drop (length (os.trace before)) (os.trace after).

(** The trace entry of one write through [f]. *)
Definition write_event (f : os.File) (x : string * option error) : os.event :=
  {| os.ev_call := os.SysWriteString f x.1; os.ev_err := x.2 |}.

Definition performed (evs : list os.event) : list (fs_op * option error) :=
  omap (fun ev => (fun op => (op, os.ev_err ev)) <$> op_of_syscall (os.ev_call ev)) evs.

(** The calls of a trace, each with whether it failed. *)
Definition calls_made (s : os.OS) : list (option fs_op * bool) :=
  map (fun ev => (op_of_syscall (os.ev_call ev),
                  match os.ev_err ev with Some _ => true | None => false end))
      (os.trace s).

(** One planned operation made on the system, [f] being the file
    opened so far: the error the call returns, the file open afterwards
    and the state the call leaves.  A write before any file is opened
    has no descriptor to go to. *)
Definition carry_out_op (op : fs_op) (f : option os.File) (s : os.OS)
    : option error * (option os.File * os.OS) :=
  match op with
  | OpMkdirAll dir perm =>
      let '(err, s) := os.MkdirAll dir perm s in (err, (f, s))
  | OpOpenFile name flag perm =>
      let '(r, s) := os.OpenFile name flag perm s in
      match r with
      | inl fd => (None, (Some fd, s))
      | inr err => (Some err, (f, s))
      end
  | OpWriteString data =>
      match f with
      | Some fd =>
          let '((_, err), s) := os.WriteString fd data s in (err, (f, s))
      | None => (Some (PathError "write" EmptyString os.EBADF), (f, s))
      end
  end.

(** The operations of a plan made one after the other, each on the
    state the one before left, up to and including the first that
    fails: the operations made, each with the error its call returned,
    the file left open and the state reached. *)
Fixpoint carry_out (ops : list fs_op) (f : option os.File) (s : os.OS)
    : list (fs_op * option error) * (option os.File * os.OS) :=
  match ops with
  | [] => ([], (f, s))
  | op :: rest =>
      let '(err, (f, s)) := carry_out_op op f s in
      match err with
      | Some _ => ([(op, err)], (f, s))
      | None =>
          let '(done, end_) := carry_out rest f s in ((op, None) :: done, end_)
      end
  end.

(** The state once the file left open, if any, is closed. *)
Definition close_opened (x : option os.File * os.OS) : os.OS :=
  match x.1 with
  | Some f => (os.Close f x.2).2
  | None => x.2
  end.

(* ================================================================== *)
(** * The wire carrier (component C) *)
(* ================================================================== *)

(** The header codec is not among the sources at hand; the definitions
    of this part follow the specification (section 4.C). *)

(** Modelled from the spec: the choices the missing header codec makes
    where the specification leaves them open: the [version] and [flags]
    it writes ("version is two hex chars, flags two hex chars") and the
    versions its parser knows ("unknown version" is malformed). *)
Class WireFormat : Type := {
  version : string;
  flags : string;
  known_version : string -> bool
}.

(** Modelled from the spec: the span context the missing
    [GetSpanFromHeader] returns, "an opaque span-context with trace_id,
    span_id, baggage only". *)
Record SpanContext : Type := {
  sc_trace_id : string;
  sc_span_id : string;
  sc_baggage : gmap string string
}.

(** Modelled from the spec: the "dedicated HeaderParent error" of the
    missing header parser. *)
Inductive header_error : Type := HeaderParent.

Definition HeaderTraceparent : string := "X-Cozeloop-Traceparent".
Definition HeaderTracestate : string := "X-Cozeloop-Tracestate".

(** Modelled from the spec: the shape check of the missing header
    parser, "trace_id (32 hex chars), span_id (16 hex chars)" written
    "as lowercase hex": lowercase hexadecimal digits, and strings of
    [n] of them. *)
Definition is_lower_hex (c : ascii) : bool :=
  let n := nat_of_ascii c in
  ((48 <=? n) && (n <=? 57) || (97 <=? n) && (n <=? 102))%nat.

Fixpoint all_lower_hex (s : string) : bool :=
  match s with
  | EmptyString => true
  | String c rest => is_lower_hex c && all_lower_hex rest
  end.

Definition hex_string (n : nat) (s : string) : bool :=
  (String.length s =? n)%nat && all_lower_hex s.

(** [strings.Split] and [strings.Join] on a one-byte separator. *)
Fixpoint split_on (sep : ascii) (s : string) : list string :=
  match s with
  | EmptyString => [EmptyString]
  | String c rest =>
      if Ascii.eqb c sep then EmptyString :: split_on sep rest
      else match split_on sep rest with
           | seg :: segs => String c seg :: segs
           | [] => [String c EmptyString]
           end
  end.

Fixpoint join (sep : ascii) (l : list string) : string :=
  match l with
  | [] => EmptyString
  | x :: rest =>
      match rest with
      | [] => x
      | _ :: _ => x +:+ String sep (join sep rest)
      end
  end.

Fixpoint contains (sep : ascii) (s : string) : bool :=
  match s with
  | EmptyString => false
  | String c rest => Ascii.eqb c sep || contains sep rest
  end.

(** Modelled from the spec: the traceparent value the missing
    [ToHeader] writes, "{version}-{trace_id}-{span_id}-{flags}". *)
Definition format_traceparent `{WireFormat} (trace_id span_id : string) : string :=
  join "-" [version; trace_id; span_id; flags].

(** Modelled from the spec: the traceparent parser of the missing
    [GetSpanFromHeader]; [None] is the failure on "malformed
    traceparent (wrong hex length, wrong segment count, unknown
    version)". *)
Definition parse_traceparent `{WireFormat} (h : string) : option (string * string) :=
  match split_on "-" h with
  | [v; trace_id; span_id; f] =>
      if hex_string 2 v && known_version v && hex_string 32 trace_id
         && hex_string 16 span_id && hex_string 2 f
      then Some (trace_id, span_id)
      else None
  | _ => None
  end.

(** Modelled from the spec: the "URL-encoded" form the missing
    [ToHeader] gives keys and values: the unreserved bytes stand for
    themselves, any other byte is written as a percent sign and two
    hexadecimal digits. *)
Definition is_unreserved (c : ascii) : bool :=
  let n := nat_of_ascii c in
  ((48 <=? n) && (n <=? 57) || (65 <=? n) && (n <=? 90)
   || (97 <=? n) && (n <=? 122)
   || (n =? 45) || (n =? 46) || (n =? 95) || (n =? 126))%nat.

Definition hex_digit (d : nat) : ascii :=
  ascii_of_nat (if (d <? 10)%nat then 48 + d else 55 + d).

Definition hex_value (c : ascii) : option nat :=
  let n := nat_of_ascii c in
  if ((48 <=? n) && (n <=? 57))%nat then Some (n - 48)%nat
  else if ((65 <=? n) && (n <=? 70))%nat then Some (n - 55)%nat
  else if ((97 <=? n) && (n <=? 102))%nat then Some (n - 87)%nat
  else None.

Definition escape_byte (c : ascii) : string :=
  if is_unreserved c then String c EmptyString
  else String "%" (String (hex_digit (nat_of_ascii c / 16))
                     (String (hex_digit (nat_of_ascii c mod 16)) EmptyString)).

Fixpoint url_escape (s : string) : string :=
  match s with
  | EmptyString => EmptyString
  | String c rest => escape_byte c +:+ url_escape rest
  end.

Fixpoint url_unescape (s : string) : option string :=
  match s with
  | EmptyString => Some EmptyString
  | String c rest =>
      if Ascii.eqb c "%" then
        match rest with
        | String a (String b rest') =>
            match hex_value a, hex_value b with
            | Some hi, Some lo =>
                String (ascii_of_nat (16 * hi + lo)) <$> url_unescape rest'
            | _, _ => None
            end
        | _ => None
        end
      else String c <$> url_unescape rest
  end.

(** Modelled from the spec: the tracestate value the missing
    [ToHeader] writes, the "URL-encoded serialization of the baggage
    map as k1=v1,k2=v2,...". *)
Definition format_item (kv : string * string) : string :=
  url_escape kv.1 +:+ String "=" (url_escape kv.2).

Definition format_tracestate (baggage : gmap string string) : string :=
  join "," (map format_item (map_to_list baggage)).

(** Modelled from the spec: the tracestate parser of the missing
    [GetSpanFromHeader]: "On malformed tracestate, drop baggage
    silently (degrade)". *)
Definition parse_item (item : string) : option (string * string) :=
  match split_on "=" item with
  | [k; v] =>
      match url_unescape k, url_unescape v with
      | Some k, Some v => Some (k, v)
      | _, _ => None
      end
  | _ => None
  end.

Definition parse_tracestate (h : string) : gmap string string :=
  if String.eqb h EmptyString then ∅
  else match mapM parse_item (split_on "," h) with
       | Some kvs => list_to_map kvs
       | None => ∅
       end.

(** Modelled from the spec: [ToHeader] of the missing span, which
    "produces two header fields" (section 4.C, export). *)
Definition ToHeader `{WireFormat} (trace_id span_id : string)
    (baggage : gmap string string) : gmap string string :=
  <[HeaderTraceparent := format_traceparent trace_id span_id]>
    (<[HeaderTracestate := format_tracestate baggage]> ∅).

(** Modelled from the spec: [GetSpanFromHeader] of the missing trace
    provider (section 4.C, import).  The traceparent header "is
    required"; on failure "no span context" is returned. *)
Definition GetSpanFromHeader `{WireFormat} (headers : gmap string string)
    : header_error + SpanContext :=
  match headers !! HeaderTraceparent with
  | None => inl HeaderParent
  | Some parent =>
      match parse_traceparent parent with
      | None => inl HeaderParent
      | Some (trace_id, span_id) =>
          inr {| sc_trace_id := trace_id; sc_span_id := span_id;
                 sc_baggage := match headers !! HeaderTracestate with
                               | Some state => parse_tracestate state
                               | None => ∅
                               end |}
      end
  end.

(** Modelled from the spec: a traceparent value of the shape the
    specification gives the missing codec, four segments of the right
    hexadecimal lengths with a known version. *)
Definition well_formed_traceparent `{WireFormat} (h : string) : Prop :=
  exists v trace_id span_id f,
    h = v +:+ String "-" (trace_id +:+ String "-" (span_id +:+ String "-" f))
    /\ hex_string 2 v = true /\ known_version v = true
    /\ hex_string 32 trace_id = true /\ hex_string 16 span_id = true
    /\ hex_string 2 f = true.

(** The format used in the examples: version 00, flags 01. *)
Definition w3c_format : WireFormat :=
  {| version := "00"; flags := "01"; known_version := String.eqb "00" |}.

(* ================================================================== *)
(** * The bounded queue (component E) *)
(* ================================================================== *)

(** The queue manager is not among the sources at hand; the
    definitions of this part follow the specification. *)

(** Modelled from the spec: the bounded queue of the batch queue
    manager (section 4.E), whose source is missing.  "A bounded FIFO
    with two capacity dimensions: maximum item count and maximum
    accumulated byte size"; a queue item is "(payload, byte_size) with
    monotonic enqueue order"; the drop counter is the one "exposed via
    finish-event hooks". *)
Record Queue (A : Type) : Type := {
  max_items : nat;
  max_bytes : N;
  items : list (A * N);
  total_bytes : N;
  dropped : nat
}.
Arguments Build_Queue {A} _ _ _ _ _.
Arguments max_items {A} _.
Arguments max_bytes {A} _.
Arguments items {A} _.
Arguments total_bytes {A} _.
Arguments dropped {A} _.

(** Modelled from the spec: a queue as configured, before any use
    (section 4.E; the constructor of the missing queue manager). *)
Definition new_queue {A} (n : nat) (b : N) : Queue A :=
  {| max_items := n; max_bytes := b; items := []; total_bytes := 0; dropped := 0 |}.

(** Modelled from the spec: [Enqueue] of the missing queue manager
    (section 4.E).  "Enqueue is non-blocking: if either bound would be
    exceeded, the item is dropped and a counter incremented".  The
    result tells whether the item was accepted. *)
Definition Enqueue {A} (q : Queue A) (x : A) (size : N) : bool * Queue A :=
  if (max_items q <? length (items q) + 1)%nat || (max_bytes q <? total_bytes q + size)%N
  then (false, {| max_items := max_items q; max_bytes := max_bytes q;
                  items := items q; total_bytes := total_bytes q;
                  dropped := S (dropped q) |})
  else (true, {| max_items := max_items q; max_bytes := max_bytes q;
                 items := items q ++ [(x, size)];
                 total_bytes := (total_bytes q + size)%N;
                 dropped := dropped q |}).

(** Modelled from the spec: [Dequeue] of the missing queue manager
    (section 4.E).  "Byte accounting is maintained so that dequeue
    decrements the byte total"; on an empty queue the consumer would
    wait, which is the result [None] here. *)
Definition Dequeue {A} (q : Queue A) : option (A * N) * Queue A :=
  match items q with
  | [] => (None, q)
  | (x, size) :: rest =>
      (Some (x, size),
       {| max_items := max_items q; max_bytes := max_bytes q;
          items := rest; total_bytes := (total_bytes q - size)%N;
          dropped := dropped q |})
  end.

(** Modelled from the spec: the operations the producers and the
    consumer of the missing queue manager apply to a queue ("concurrent
    producers and a single consumer per queue"), one at a time. *)
Inductive queue_op (A : Type) : Type :=
| OpEnqueue (x : A) (size : N)
| OpDequeue.
Arguments OpEnqueue {A} _ _.
Arguments OpDequeue {A}.

Definition apply_op {A} (q : Queue A) (op : queue_op A) : Queue A :=
  match op with
  | OpEnqueue x size => (Enqueue q x size).2
  | OpDequeue => (Dequeue q).2
  end.

(** The state a queue reaches from its creation under [ops]. *)
Definition queue_after {A} (n : nat) (b : N) (ops : list (queue_op A)) : Queue A :=
  fold_left apply_op ops (new_queue n b).

(** The bytes the items of a queue account for. *)
Definition held_bytes {A} (l : list (A * N)) : N :=
  fold_right (fun it acc => (it.2 + acc)%N) 0%N l.

(* ================================================================== *)
(** * The span processor (component G) *)
(* ================================================================== *)

(** The span processor is not among the sources at hand either; the
    specification (section 4.G) and the excerpts of
    [span_processor.go] and [queue_manager.go] it quotes are followed. *)

(** Modelled from the spec: a finished span as the missing span
    processor handles it: the object (told apart by [ident]) and its
    "accumulated byte size estimate (used for queue byte budget)". *)
Record Span : Type := { ident : nat; byte_size : N }.

(** Modelled from the spec: the two span queues of the missing span
    processor, "SQ (span primary), SRQ (span retry)" (section 4.G). *)
Inductive queue_id : Type := SQ | SRQ.

(** Modelled from the spec: what the missing span processor does to a
    span, as its finish-event hooks describe it, "enqueue / export /
    drop events" (section 4.G, step 3): an [Enqueue] on a queue with
    its outcome, the export of a batch holding the span with its
    outcome, and the final drop. *)
Inductive pipeline_event : Type :=
| EvEnqueue (q : queue_id) (x : nat) (accepted : bool)
| EvExport (q : queue_id) (x : nat) (ok : bool)
| EvDrop (x : nat).

(** Modelled from the spec: the state of the missing span processor,
    its two span queues and the events so far (section 4.G). *)
Record Processor : Type := {
  sq : Queue Span;
  srq : Queue Span;
  events : list pipeline_event
}.

(** Modelled from the spec: the missing span processor when created,
    with the limits of its queues (section 4.G, table of defaults). *)
Definition new_processor (sq_items srq_items : nat) (sq_bytes srq_bytes : N)
    : Processor :=
  {| sq := new_queue sq_items sq_bytes; srq := new_queue srq_items srq_bytes;
     events := [] |}.

(** Modelled from the spec: [OnSpanEnd] of the missing span processor.
    "on_span_end(span) enqueues to SQ, counting the span's byte
    estimate" (section 4.G). *)
Definition on_span_end (p : Processor) (s : Span) : Processor :=
  let '(accepted, q) := Enqueue (sq p) s (byte_size s) in
  {| sq := q; srq := srq p;
     events := events p ++ [EvEnqueue SQ (ident s) accepted] |}.

(** Modelled from the spec: the batch the missing batch manager hands
    to the export function (section 4.F): the items at the head of the
    queue, at most [n] of them, [n] standing for whichever of the count,
    byte and time thresholds fired. *)
Fixpoint take_batch {A} (n : nat) (q : Queue A) : list (A * N) * Queue A :=
  match n with
  | O => ([], q)
  | S n' =>
      match Dequeue q with
      | (None, q') => ([], q')
      | (Some it, q') =>
          let '(batch, q'') := take_batch n' q' in (it :: batch, q'')
      end
  end.

(** Modelled from the spec: the re-enqueueing loop of the missing
    export function, "enqueue every original Span ... to SRQ" (section
    4.G, step 2). *)
Definition retry_spans (p : Processor) (batch : list (Span * N)) : Processor :=
  fold_left
    (fun p it =>
       let '(accepted, q) := Enqueue (srq p) it.1 (byte_size it.1) in
       {| sq := sq p; srq := q;
          events := events p ++ [EvEnqueue SRQ (ident it.1) accepted] |})
    batch p.

(** Modelled from the spec: one span batch export of the missing span
    processor (section 4.G, "Span batch export (SQ / SRQ)"), the
    exporter answering [ok].  "On failure: enqueue every original Span
    ... to SRQ, but only if dequeued from SQ.  Items dequeued from SRQ
    are not re-enqueued: one retry maximum, then dropped."  The files a
    successful export sends on to the file queue are not spans and are
    left out. *)
Definition export_batch (p : Processor) (from : queue_id) (n : nat) (ok : bool)
    : Processor :=
  let '(batch, q) := take_batch n (match from with SQ => sq p | SRQ => srq p end) in
  let exported := map (fun it : Span * N => EvExport from (ident it.1) ok) batch in
  let p := {| sq := match from with SQ => q | SRQ => sq p end;
              srq := match from with SQ => srq p | SRQ => q end;
              events := events p ++ exported |} in
  if ok then p
  else match from with
       | SQ => retry_spans p batch
       | SRQ =>
           {| sq := sq p; srq := srq p;
              events := events p
                        ++ map (fun it : Span * N => EvDrop (ident it.1)) batch |}
       end.

(** Modelled from the spec: what happens to the pipeline of the
    missing span processor, one step at a time: a span is finished, or
    the consumer of a queue exports a batch (section 5, "each of the
    four queues has exactly one consumer task"). *)
Inductive pipeline_step : Type :=
| StepSpanEnd (s : Span)
| StepExport (from : queue_id) (n : nat) (ok : bool).

Definition pipeline_do (p : Processor) (st : pipeline_step) : Processor :=
  match st with
  | StepSpanEnd s => on_span_end p s
  | StepExport from n ok => export_batch p from n ok
  end.

Definition pipeline_run (p : Processor) (steps : list pipeline_step) : Processor :=
  fold_left pipeline_do steps p.

(** The spans that are finished in the course of [steps]: "Finish is
    idempotent at the object level but enqueues only once", so no span
    occurs twice among them. *)
Definition finished (steps : list pipeline_step) : list nat :=
  omap (fun st => match st with
                  | StepSpanEnd s => Some (ident s)
                  | StepExport _ _ _ => None
                  end) steps.

Definition queue_id_eqb (a b : queue_id) : bool :=
  match a, b with SQ, SQ | SRQ, SRQ => true | _, _ => false end.

(** Events about span [x]: an [Enqueue] on [q], an [Enqueue] on any
    queue, an export from [q], a failed export from [q]. *)
Definition is_enqueue_on (q : queue_id) (x : nat) (ev : pipeline_event) : bool :=
  match ev with
  | EvEnqueue q' y _ => queue_id_eqb q q' && (x =? y)%nat
  | _ => false
  end.

Definition is_enqueue (x : nat) (ev : pipeline_event) : bool :=
  is_enqueue_on SQ x ev || is_enqueue_on SRQ x ev.

Definition is_export_from (q : queue_id) (x : nat) (ev : pipeline_event) : bool :=
  match ev with
  | EvExport q' y _ => queue_id_eqb q q' && (x =? y)%nat
  | _ => false
  end.

Definition is_failure_from (q : queue_id) (x : nat) (ev : pipeline_event) : bool :=
  match ev with
  | EvExport q' y ok => queue_id_eqb q q' && (x =? y)%nat && negb ok
  | _ => false
  end.

Definition count_events (f : pipeline_event -> bool) (l : list pipeline_event) : nat :=
  length (List.filter f l).

Definition is_accepted_on (q : queue_id) (x : nat) (ev : pipeline_event) : bool :=
  match ev with
  | EvEnqueue q' y accepted => queue_id_eqb q q' && (x =? y)%nat && accepted
  | _ => false
  end.

(** How often span [x] sits in a list of items, and in a list of spans
    still to be finished. *)
Definition occurrences (x : nat) (l : list (Span * N)) : nat :=
  length (List.filter (fun it : Span * N => (x =? ident it.1)%nat) l).

Definition pending (x : nat) (l : list nat) : nat :=
  length (List.filter (fun y => (x =? y)%nat) l).

(** Once span [x] has been exported from the retry queue, no [Enqueue]
    of it follows. *)
Definition no_enqueue_after_retry (x : nat) (l : list pipeline_event) : Prop :=
  forall before after,
    l = before ++ after ->
    (0 < count_events (is_export_from SRQ x) before)%nat ->
    count_events (is_enqueue x) after = 0%nat.

(** The way of span [x] through the pipeline, in numbers: finished at
    most once; in SQ or exported from it once accepted; offered to SRQ
    once per failure from SQ; in SRQ or exported from it once accepted
    there. *)
Definition span_accounts (x : nat) (p : Processor) (future : list nat) : Prop :=
  let n f := count_events f (events p) in
  (n (is_enqueue_on SQ x) + pending x future <= 1)%nat
  /\ (occurrences x (items (sq p)) + n (is_export_from SQ x)
      = n (is_accepted_on SQ x))%nat
  /\ (n (is_accepted_on SQ x) <= n (is_enqueue_on SQ x))%nat
  /\ n (is_enqueue_on SRQ x) = n (is_failure_from SQ x)
  /\ (n (is_failure_from SQ x) <= n (is_export_from SQ x))%nat
  /\ (occurrences x (items (srq p)) + n (is_export_from SRQ x)
      = n (is_accepted_on SRQ x))%nat
  /\ (n (is_accepted_on SRQ x) <= n (is_enqueue_on SRQ x))%nat
  /\ no_enqueue_after_retry x (events p).

(** The retry queue after the spans of a batch were offered to it, one
    [Enqueue] each, in the order of the batch. *)
Definition offered (q : Queue Span) (batch : list (Span * N)) : Queue Span :=
  fold_left (fun q it => (Enqueue q it.1 (byte_size it.1)).2) batch q.

(** The events of those offers: for each span whether the queue, as
    the spans before it left it, accepted it. *)
Fixpoint offers_log (q : Queue Span) (batch : list (Span * N))
    : list pipeline_event :=
  match batch with
  | [] => []
  | it :: rest =>
      EvEnqueue SRQ (ident it.1) (Enqueue q it.1 (byte_size it.1)).1
      :: offers_log (Enqueue q it.1 (byte_size it.1)).2 rest
  end.

(** The spans of a batch as items of the retry queue. *)
Definition as_items (batch : list (Span * N)) : list (Span * N) :=
  map (fun it : Span * N => (it.1, byte_size it.1)) batch.

(** The queue has room for the whole batch, under both bounds. *)
Definition has_room (q : Queue Span) (batch : list (Span * N)) : Prop :=
  (length (items q) + length batch <= max_items q)%nat
  /\ (total_bytes q + held_bytes (as_items batch) <= max_bytes q)%N.

(** The first half of the statement as the specification words it: a
    span whose export from SQ failed is placed on SRQ exactly once. *)
Definition placed_on_SRQ_once (p : Processor) (x : nat) : Prop :=
  (0 < count_events (is_failure_from SQ x) (events p))%nat ->
  count_events (is_accepted_on SRQ x) (events p) = 1%nat.

(** A processor whose queues hold 1024 and 512 items and 4 MiB each,
    and a run in which the exporter is down: two spans of 1.5 MiB are
    finished and fail their export from SQ, then two more do, before
    the consumer of SRQ has taken anything. *)
Definition sample_processor : Processor := new_processor 1024 512 4194304 4194304.

Definition outage : list pipeline_step :=
  [StepSpanEnd {| ident := 1; byte_size := 1572864 |};
   StepSpanEnd {| ident := 2; byte_size := 1572864 |};
   StepExport SQ 100 false;
   StepSpanEnd {| ident := 3; byte_size := 1572864 |};
   StepSpanEnd {| ident := 4; byte_size := 1572864 |};
   StepExport SQ 100 false].

(** The bounds, and the agreement of the byte counter with the items. *)
Definition within_bounds {A} (q : Queue A) : Prop :=
  (length (items q) <= max_items q)%nat
  /\ (held_bytes (items q) <= max_bytes q)%N
  /\ total_bytes q = held_bytes (items q).

(* ================================================================== *)
(** * Notions used to state further properties *)
(* ================================================================== *)

(** No pipe of [s] stands unescaped: each one comes right after a
    backslash; [prev] tells whether the byte before [s] is one. *)
Fixpoint pipes_escaped (prev : bool) (s : string) : bool :=
  match s with
  | EmptyString => true
  | String c rest =>
      (if Ascii.eqb c "|" then prev else true)
      && pipes_escaped (Ascii.eqb c "\") rest
  end.

(** How often the byte [c] occurs in [s]. *)
Fixpoint count_char (c : ascii) (s : string) : nat :=
  match s with
  | EmptyString => O
  | String x rest => ((if Ascii.eqb x c then 1 else 0) + count_char c rest)%nat
  end.

Definition starts_with (p s : string) : Prop := exists r, s = p +:+ r.
Definition ends_with (q s : string) : Prop := exists l, s = l +:+ q.

(** One row of the table of string tags, as [writeTagsToTable] prints
    it for the key [k] of [tags]. *)
Definition tag_row (tags : list (string * string)) (k : string) : string :=
  "| " +:+ escapeMarkdown k +:+ " | "
  +:+ escapeMarkdown (truncateString (map_index EmptyString tags k) 100)
  +:+ " |" +:+ LF.

(** The maps of long, double and bool tags are ranged over as they
    come, and Go visits the entries of a map in an order of its own
    choosing, anew at each range; only the string tags are sorted
    first.  A span is [order_free] when each of those maps holds at
    most one entry, so that no choice of order can show in its
    markdown. *)
Definition order_free (span : UploadSpan) : Prop :=
  (length (TagsLong span) <= 1)%nat
  /\ (length (TagsDouble span) <= 1)%nat
  /\ (length (TagsBool span) <= 1)%nat
  /\ (length (SystemTagsLong span) <= 1)%nat
  /\ (length (SystemTagsDouble span) <= 1)%nat.

Definition all_order_free (spans : list (option UploadSpan)) : Prop :=
  Forall (fun x => match x with Some span => order_free span | None => True end)
         spans.

(** A file system on which the calls of the exporter [e] go through:
    the environment holds no fault in store, the trace file is not a
    directory and is not its own directory, and no regular file stands
    where its directory is to be. *)
Definition healthy `{Platform} (e : FileExporter) (s : os.OS) : Prop :=
  os.faults s = []
  /\ (filePath e ∉ os.dirs s)
  /\ filepath_Dir (filePath e) <> filePath e
  /\ os.files s !! filepath_Dir (filePath e) = None.

(* ================================================================== *)
(** * Theorems: MultiExporter *)
(* ================================================================== *)

Section MultiExporterFacts.
Context {W : Type}.
Implicit Types (m : MultiExporter W) (e : Exporter W) (s : Run W).

Lemma first_error_None (rs : list (option error)) :
  first_error rs = None <-> Forall (fun r => r = None) rs.
Proof.
  induction rs as [|[x|] rs IH]; simpl.
  - split; auto.
  - split; [discriminate | intros H; inversion H; discriminate].
  - rewrite IH. split; [auto | intros H; inversion H; auto].
Qed.

Lemma results_in_order_length (ops : list (W -> option error * W)) w :
  length (results_in_order ops w).1 = length ops.
Proof.
  revert w. induction ops as [|op ops IH]; intros w; simpl; [reflexivity|].
  destruct (op w) as [r w1]. specialize (IH w1).
  destruct (results_in_order ops w1) as [rs w2]. simpl in *. congruence.
Qed.

Lemma range_ExportSpans_spec ctx spans (es : list (Exporter W)) acc s :
  let '(rs, w') :=
    results_in_order (map (fun e => exp_ExportSpans e ctx spans) es) (world s) in
  range_ExportSpans ctx spans (map Some es) acc s =
    (Returned (match acc with Some _ => acc | None => first_error rs end),
     {| world := w';
        calls := calls s ++ map (fun e => CallExportSpans e ctx spans) es |}).
Proof.
  revert acc s. induction es as [|e es IH]; intros acc s; simpl.
  - unfold ret. rewrite app_nil_r. destruct s, acc; reflexivity.
  - unfold bind, call_ExportSpans.
    destruct (exp_ExportSpans e ctx spans (world s)) as [r w1] eqn:He.
    match goal with |- context [range_ExportSpans _ _ _ ?a ?t] =>
      specialize (IH a t) end.
    simpl in IH.
    destruct (results_in_order _ w1) as [rs w2].
    rewrite IH, <- app_assoc. simpl.
    destruct r, acc; reflexivity.
Qed.

Lemma range_ExportFiles_spec ctx files (es : list (Exporter W)) acc s :
  let '(rs, w') :=
    results_in_order (map (fun e => exp_ExportFiles e ctx files) es) (world s) in
  range_ExportFiles ctx files (map Some es) acc s =
    (Returned (match acc with Some _ => acc | None => first_error rs end),
     {| world := w';
        calls := calls s ++ map (fun e => CallExportFiles e ctx files) es |}).
Proof.
  revert acc s. induction es as [|e es IH]; intros acc s; simpl.
  - unfold ret. rewrite app_nil_r. destruct s, acc; reflexivity.
  - unfold bind, call_ExportFiles.
    destruct (exp_ExportFiles e ctx files (world s)) as [r w1] eqn:He.
    match goal with |- context [range_ExportFiles _ _ _ ?a ?t] =>
      specialize (IH a t) end.
    simpl in IH.
    destruct (results_in_order _ w1) as [rs w2].
    rewrite IH, <- app_assoc. simpl.
    destruct r, acc; reflexivity.
Qed.

End MultiExporterFacts.

Section MultiExporterTheorems.
Context {W : Type}.
Implicit Types (m : MultiExporter W) (s : Run W).

Lemma NewMultiExporter_fold (args acc : list (option (Exporter W))) :
  fold_left (fun valid e => match e with
                            | Some _ => valid ++ [e]
                            | None => valid
                            end) args acc = acc ++ non_nil args.
Proof.
  revert acc. induction args as [|[e|] args IH]; intros acc; simpl.
  - now rewrite app_nil_r.
  - rewrite IH, <- app_assoc. reflexivity.
  - apply IH.
Qed.

Lemma NewMultiExporter_exporters (args : list (option (Exporter W))) :
  exporters (NewMultiExporter args) = non_nil args.
Proof. unfold NewMultiExporter. simpl. now rewrite NewMultiExporter_fold. Qed.

Lemma non_nil_Forall (args : list (option (Exporter W))) :
  Forall (fun a => a <> None) (non_nil args).
Proof.
  induction args as [|[e|] args IH]; simpl; auto.
Qed.

Lemma no_nil_map_Some (l : list (option (Exporter W))) :
  Forall (fun a => a <> None) l -> exists es, l = map Some es.
Proof.
  induction 1 as [|[e|] l Hx _ [es ->]].
  - now exists [].
  - now exists (e :: es).
  - congruence.
Qed.

Lemma MultiExporter_export_children m (es : list (Exporter W)) :
  exporters m = map Some es ->
  (forall ctx spans s,
      MultiExporter_ExportSpans m ctx spans s =
        (Returned (first_error (results_in_order
                     (map (fun e => exp_ExportSpans e ctx spans) es) (world s)).1),
         {| world := (results_in_order
                        (map (fun e => exp_ExportSpans e ctx spans) es) (world s)).2;
            calls := calls s ++ map (fun e => CallExportSpans e ctx spans) es |}))
  /\
  (forall ctx files s,
      MultiExporter_ExportFiles m ctx files s =
        (Returned (first_error (results_in_order
                     (map (fun e => exp_ExportFiles e ctx files) es) (world s)).1),
         {| world := (results_in_order
                        (map (fun e => exp_ExportFiles e ctx files) es) (world s)).2;
            calls := calls s ++ map (fun e => CallExportFiles e ctx files) es |})).
Proof.
  intros Hm. split.
  - intros ctx spans s. unfold MultiExporter_ExportSpans. rewrite Hm.
    destruct es as [|e es'].
    + simpl. unfold ret. rewrite app_nil_r. destruct s; reflexivity.
    + change (length (map Some (e :: es')) =? 0)%nat with false. cbv iota.
      pose proof (range_ExportSpans_spec ctx spans (e :: es') None s) as H.
      destruct (results_in_order _ (world s)) as [rs w']. exact H.
  - intros ctx files s. unfold MultiExporter_ExportFiles. rewrite Hm.
    destruct es as [|e es'].
    + simpl. unfold ret. rewrite app_nil_r. destruct s; reflexivity.
    + change (length (map Some (e :: es')) =? 0)%nat with false. cbv iota.
      pose proof (range_ExportFiles_spec ctx files (e :: es') None s) as H.
      destruct (results_in_order _ (world s)) as [rs w']. exact H.
Qed.

(** C1. A [MultiExporter] wrapping [e1..en] calls the operation of
    every child exactly once, in order and with the batch it was
    given, whatever the earlier children returned; it returns the
    first error among the children's results, and nil exactly when
    every child returned nil.  The same holds for [ExportFiles]. *)
Theorem MultiExporter_export_calls_every_child_once
    m (es : list (Exporter W)) ctx s :
  exporters m = map Some es ->
  (forall spans,
      let run := results_in_order
                   (map (fun e => exp_ExportSpans e ctx spans) es) (world s) in
      MultiExporter_ExportSpans m ctx spans s =
        (Returned (first_error run.1),
         {| world := run.2;
            calls := calls s ++ map (fun e => CallExportSpans e ctx spans) es |})
      /\ length run.1 = length es
      /\ (first_error run.1 = None <-> Forall (fun r => r = None) run.1))
  /\
  (forall files,
      let run := results_in_order
                   (map (fun e => exp_ExportFiles e ctx files) es) (world s) in
      MultiExporter_ExportFiles m ctx files s =
        (Returned (first_error run.1),
         {| world := run.2;
            calls := calls s ++ map (fun e => CallExportFiles e ctx files) es |})
      /\ length run.1 = length es
      /\ (first_error run.1 = None <-> Forall (fun r => r = None) run.1)).
Proof.
  intros Hm. destruct (MultiExporter_export_children m es Hm) as [Hs Hf].
  split.
  - intros spans run. subst run. split; [apply Hs|]. split.
    + rewrite results_in_order_length. apply length_map.
    + apply first_error_None.
  - intros files run. subst run. split; [apply Hf|]. split.
    + rewrite results_in_order_length. apply length_map.
    + apply first_error_None.
Qed.

(** C2. [NewMultiExporter] keeps exactly the non-nil arguments, in
    their original order, and [ExporterCount] counts them. *)
Theorem NewMultiExporter_keeps_non_nil (args : list (option (Exporter W))) :
  exporters (NewMultiExporter args) = non_nil args
  /\ ExporterCount (NewMultiExporter args) = Z.of_nat (count_non_nil args).
Proof.
  split; [apply NewMultiExporter_exporters|].
  unfold ExporterCount. rewrite NewMultiExporter_exporters. f_equal.
  induction args as [|[e|] args IH]; simpl; auto.
Qed.

(** C3. A [MultiExporter] made from no argument, or from nil
    arguments only, wraps nothing, and its [ExportSpans] and
    [ExportFiles] return nil for every batch (calling nothing). *)
Theorem MultiExporter_without_children_returns_nil
    (args : list (option (Exporter W))) ctx spans files s :
  Forall (fun a => a = None) args ->
  ExporterCount (NewMultiExporter args) = 0
  /\ MultiExporter_ExportSpans (NewMultiExporter args) ctx spans s = (Returned None, s)
  /\ MultiExporter_ExportFiles (NewMultiExporter args) ctx files s = (Returned None, s).
Proof.
  intros Hnil.
  assert (Hex : exporters (NewMultiExporter args) = []).
  { rewrite NewMultiExporter_exporters.
    induction Hnil as [|a args Ha _ IH]; [reflexivity|]. subst a. exact IH. }
  unfold ExporterCount, MultiExporter_ExportSpans, MultiExporter_ExportFiles.
  rewrite Hex. simpl. auto.
Qed.

Lemma AddExporter_no_nil m exporter :
  Forall (fun a => a <> None) (exporters m) ->
  Forall (fun a => a <> None) (exporters (AddExporter m exporter)).
Proof.
  intros Hm. destruct exporter as [e|]; simpl; [|exact Hm].
  apply Forall_app. split; [exact Hm|]. repeat constructor. discriminate.
Qed.

Lemma AddExporters_no_nil m added :
  Forall (fun a => a <> None) (exporters m) ->
  Forall (fun a => a <> None) (exporters (AddExporters m added)).
Proof.
  revert m. induction added as [|x added IH]; intros m Hm; simpl; [exact Hm|].
  apply IH, AddExporter_no_nil, Hm.
Qed.

(** C10. The list a [MultiExporter] wraps never holds nil: it holds
    none after [NewMultiExporter], and none after any sequence of
    [AddExporter] calls, each of which leaves the receiver as it is
    when given nil; hence [ExportSpans] and [ExportFiles] never call
    a method on a nil exporter (which would panic). *)
Theorem MultiExporter_never_wraps_nil (args added : list (option (Exporter W))) :
  let m := AddExporters (NewMultiExporter args) added in
  Forall (fun a => a <> None) (exporters (NewMultiExporter args))
  /\ Forall (fun a => a <> None) (exporters m)
  /\ AddExporter m None = m
  /\ (forall ctx spans s, (MultiExporter_ExportSpans m ctx spans s).1 <> Panicked)
  /\ (forall ctx files s, (MultiExporter_ExportFiles m ctx files s).1 <> Panicked).
Proof.
  intros m.
  assert (Hnew : Forall (fun a => a <> None) (exporters (NewMultiExporter args))).
  { rewrite NewMultiExporter_exporters. apply non_nil_Forall. }
  assert (Hno : Forall (fun a => a <> None) (exporters m)).
  { apply AddExporters_no_nil, Hnew. }
  split; [exact Hnew|]. split; [exact Hno|]. split; [reflexivity|].
  destruct (no_nil_map_Some _ Hno) as [es Hes].
  destruct (MultiExporter_export_children m es) as [Hs Hf]; [exact Hes|].
  split.
  - intros ctx spans s. rewrite (Hs ctx spans s). simpl. discriminate.
  - intros ctx files s. rewrite (Hf ctx files s). simpl. discriminate.
Qed.

End MultiExporterTheorems.

(** [TestMultiExporter_ExportSpans], "should return first error when
    multiple exporters fail": both children are called with the batch
    and the first error comes back. *)
Lemma MultiExporter_export_calls_every_child_once_witness :
  let m := NewMultiExporter [Some (mock 1); Some (mock 2)] in
  let spans := [Some (span_with_id "test")] in
  let s := {| world := two_failing_mocks; calls := [] |} in
  exporters m = map Some [mock 1; mock 2]
  /\ (MultiExporter_ExportSpans m Background spans s).1
       = Returned (Some (errorString "first error"))
  /\ calls (MultiExporter_ExportSpans m Background spans s).2
       = [CallExportSpans (mock 1) Background spans;
          CallExportSpans (mock 2) Background spans]
  /\ exportSpansCalled <$> world (MultiExporter_ExportSpans m Background spans s).2 !! 2%nat
       = Some true.
Proof.
  intros m spans s. split; [reflexivity|].
  destruct (MultiExporter_export_calls_every_child_once
              m [mock 1; mock 2] Background s eq_refl) as [Hs _].
  destruct (Hs spans) as [-> _].
  split; [|split]; vm_compute; reflexivity.
Defined.

(** [TestNewMultiExporter], "should handle all nil exporters". *)
Lemma MultiExporter_without_children_returns_nil_witness :
  let args : list (option (Exporter (gmap nat mockExporter))) := [None; None] in
  let s := {| world := two_failing_mocks; calls := [] |} in
  Forall (fun a => a = None) args
  /\ MultiExporter_ExportSpans (NewMultiExporter args) Background
        [Some (span_with_id "test")] s = (Returned None, s).
Proof.
  intros args s.
  assert (H : Forall (fun a => a = None) args) by (repeat constructor).
  split; [exact H|].
  exact (proj1 (proj2 (MultiExporter_without_children_returns_nil
                         args Background [Some (span_with_id "test")] [] s H))).
Defined.

(** A list holding nil, which no constructor produces, does panic. *)
Example MultiExporter_with_nil_child_panics :
  let m : MultiExporter (gmap nat mockExporter) := {| exporters := [Some (mock 1); None] |} in
  (MultiExporter_ExportSpans m Background [] {| world := two_failing_mocks; calls := [] |}).1
  = Panicked.
Proof. reflexivity. Qed.

(* ================================================================== *)
(** * Theorems: the operating system model *)
(* ================================================================== *)

Module os_facts.
Import os.

Lemma string_app_nil_l (s : string) : EmptyString +:+ s = s.
Proof. reflexivity. Qed.

Lemma string_app_cons (c : ascii) (a b : string) : String c a +:+ b = String c (a +:+ b).
Proof. reflexivity. Qed.

Lemma string_app_nil_r (s : string) : s +:+ EmptyString = s.
Proof.
  induction s as [|c s IH]; [reflexivity|]. rewrite string_app_cons. congruence.
Qed.

Lemma string_app_assoc (a b c : string) : (a +:+ b) +:+ c = a +:+ (b +:+ c).
Proof.
  induction a as [|x a IH]; [reflexivity|]. rewrite !string_app_cons. congruence.
Qed.


Lemma next_fault_frame (s : OS) :
  files (next_fault s).2 = files s
  /\ dirs (next_fault s).2 = dirs s
  /\ open_files (next_fault s).2 = open_files s
  /\ next_fd (next_fault s).2 = next_fd s
  /\ trace (next_fault s).2 = trace s.
Proof. unfold next_fault. destruct (faults s); simpl; auto. Qed.

Ltac use_next_fault s f s1 :=
  let H := fresh "Hnf" in
  pose proof (next_fault_frame s) as H;
  destruct (next_fault s) as [f s1]; simpl in H;
  destruct H as (?Hfiles & ?Hdirs & ?Hopen & ?Hfd & ?Htrace).

(** Every call adds exactly one event to the trace: itself, with the
    error it returned. *)
Lemma MkdirAll_trace path perm s :
  trace (MkdirAll path perm s).2
  = trace s ++ [{| ev_call := SysMkdirAll path perm;
                   ev_err := (MkdirAll path perm s).1 |}].
Proof.
  unfold MkdirAll. use_next_fault s f s1.
  destruct f; [destruct (files s1 !! path)|..]; simpl; congruence.
Qed.

Lemma OpenFile_trace name flag perm s :
  trace (OpenFile name flag perm s).2
  = trace s ++ [{| ev_call := SysOpenFile name flag perm;
                   ev_err := match (OpenFile name flag perm s).1 with
                             | inl _ => None
                             | inr err => Some err
                             end |}].
Proof.
  unfold OpenFile. use_next_fault s f s1.
  destruct f; simpl; try congruence.
  destruct (decide (name ∈ dirs s1)); simpl; [congruence|].
  destruct (files s1 !! name); simpl.
  - destruct (has_flag flag O_CREATE && has_flag flag O_EXCL); simpl; [congruence|].
    destruct (has_flag flag O_TRUNC && negb (access_mode flag =? O_RDONLY));
      simpl; congruence.
  - destruct (has_flag flag O_CREATE); simpl; congruence.
Qed.

Lemma WriteString_trace fd data s :
  trace (WriteString fd data s).2
  = trace s ++ [{| ev_call := SysWriteString fd data;
                   ev_err := (WriteString fd data s).1.2 |}].
Proof.
  unfold WriteString. use_next_fault s f s1.
  destruct (open_files s1 !! fd) as [entry|]; simpl; [|congruence].
  destruct (access_mode (of_flag entry) =? O_RDONLY); simpl; [congruence|].
  destruct f; simpl; congruence.
Qed.

Lemma Close_trace fd s :
  trace (Close fd s).2
  = trace s ++ [{| ev_call := SysClose fd; ev_err := (Close fd s).1 |}].
Proof.
  unfold Close. use_next_fault s f s1.
  destruct (open_files s1 !! fd) as [entry|]; simpl; [|congruence].
  destruct f; simpl; congruence.
Qed.

(** What the calls do to the contents of files. *)
Lemma MkdirAll_files path perm s : files (MkdirAll path perm s).2 = files s.
Proof.
  unfold MkdirAll. use_next_fault s f s1.
  destruct f; [destruct (files s1 !! path)|..]; simpl; congruence.
Qed.

Lemma Close_files fd s : files (Close fd s).2 = files s.
Proof.
  unfold Close. use_next_fault s f s1.
  destruct (open_files s1 !! fd) as [entry|]; simpl; congruence.
Qed.

(** Opening without [O_TRUNC] leaves every existing file as it is,
    and the descriptor returned refers to [name] with the flags
    given. *)
Lemma OpenFile_no_trunc name flag perm s :
  has_flag flag O_TRUNC = false ->
  (forall p old, files s !! p = Some old ->
                 files (OpenFile name flag perm s).2 !! p = Some old)
  /\ (forall p, p <> name ->
                files (OpenFile name flag perm s).2 !! p = files s !! p)
  /\ (forall fd, (OpenFile name flag perm s).1 = inl fd ->
                 open_files (OpenFile name flag perm s).2 !! fd
                 = Some {| of_path := name; of_flag := flag; of_offset := 0 |}).
Proof.
  intros Htrunc. unfold OpenFile. use_next_fault s f s1.
  rewrite Htrunc. simpl andb.
  destruct f; simpl; [|rewrite Hfiles; repeat split; auto; discriminate..].
  destruct (decide (name ∈ dirs s1)); simpl;
    [rewrite Hfiles; repeat split; auto; discriminate|].
  destruct (files s1 !! name) as [content|] eqn:Hname; simpl.
  - destruct (has_flag flag O_CREATE && has_flag flag O_EXCL); simpl;
      rewrite Hfiles; repeat split; auto; try discriminate.
    intros fd [= <-]. apply lookup_insert_eq.
  - destruct (has_flag flag O_CREATE); simpl;
      [|rewrite Hfiles; repeat split; auto; discriminate].
    repeat split.
    + intros p old Hp. rewrite lookup_insert_ne; [congruence|].
      intros <-. congruence.
    + intros p Hp. rewrite lookup_insert_ne; congruence.
    + intros fd [= <-]. apply lookup_insert_eq.
Qed.


End os_facts.

(* ================================================================== *)
(** * Theorems: FileExporter *)
(* ================================================================== *)

Section FileExporterTheorems.
Context `{Platform}.
Import os os_facts.

Lemma performed_app (a b : list event) :
  performed (a ++ b) = performed a ++ performed b.
Proof. apply omap_app. Qed.

Lemma performed_writes (f : File) (done : list (string * option error)) :
  performed (map (write_event f) done)
  = map (fun x => (OpWriteString x.1, x.2)) done.
Proof. induction done as [|x done IH]; simpl; [reflexivity|]. now f_equal. Qed.

Lemma rendered_cons_Some span rest :
  rendered (Some span :: rest) = spanToMarkdown span :: rendered rest.
Proof. reflexivity. Qed.

Lemma rendered_cons_None rest : rendered (None :: rest) = rendered rest.
Proof. reflexivity. Qed.

(** The writes of the loop: made in the order of the batch, one per
    non-nil span, up to and including the first that fails. *)
Lemma write_spans_performed f spans s :
  exists done : list (string * option error),
    trace (write_spans f spans s).2 = trace s ++ map (write_event f) done
    /\ (exists k, rendered spans = map fst done ++ k)
    /\ (write_spans f spans s).1 = first_error (map snd done)
    /\ ((write_spans f spans s).1 = None -> map fst done = rendered spans).
Proof.
  revert s. induction spans as [|[span|] rest IH]; intros s.
  - exists []. simpl. rewrite app_nil_r. repeat split; auto. now exists [].
  - simpl write_spans. rewrite rendered_cons_Some.
    pose proof (WriteString_trace f (spanToMarkdown span) s) as Htr.
    destruct (WriteString f (spanToMarkdown span) s) as [[n err] s1].
    simpl in Htr. destruct err as [err|].
    + exists [(spanToMarkdown span, Some err)]. simpl.
      repeat split; auto; [now exists (rendered rest) | discriminate].
    + destruct (IH s1) as (done & H1 & [k H2] & H3 & H4).
      exists ((spanToMarkdown span, None) :: done). simpl.
      rewrite H1, Htr, <- app_assoc. repeat split; auto.
      * exists k. now rewrite H2.
      * intros Hn. now rewrite (H4 Hn).
  - simpl write_spans. rewrite rendered_cons_None. apply IH.
Qed.

Lemma mkdir_needed_decide (dir : string) :
  negb (String.eqb dir EmptyString) && negb (String.eqb dir ".")
  = if decide (dir = EmptyString \/ dir = ".") then false else true.
Proof.
  destruct (String.eqb_spec dir EmptyString), (String.eqb_spec dir ".");
    destruct (decide _) as [|Hn]; simpl; auto; try tauto.
Qed.

(** Opening the file, the writes and the deferred [Close], from any
    state: the operations performed are a prefix of those planned,
    all of them when nil is returned, and the result is the first
    error among them. *)
Lemma open_and_write_performed e spans s0 :
  let res :=
    (let '(f, s) := OpenFile (filePath e)
                      (Z.lor (Z.lor O_APPEND O_CREATE) O_WRONLY) 420 s0 in
     match f with
     | inr err => (Some err, s)
     | inl f =>
         let '(err, s) := write_spans f spans s in
         let '(_, s) := Close f s in
         (err, s)
     end) in
  let plan := OpOpenFile (filePath e) 1089 420 :: map OpWriteString (rendered spans) in
  exists evs,
    trace res.2 = trace s0 ++ evs
    /\ (exists k, plan = map fst (performed evs) ++ k)
    /\ res.1 = first_error (map snd (performed evs))
    /\ (res.1 = None -> map fst (performed evs) = plan).
Proof.
  intros res plan. subst res plan.
  change (Z.lor (Z.lor O_APPEND O_CREATE) O_WRONLY) with 1089.
  pose proof (OpenFile_trace (filePath e) 1089 420 s0) as Hop.
  destruct (OpenFile (filePath e) 1089 420 s0) as [[f|err] s1]; simpl in Hop.
  - destruct (write_spans_performed f spans s1) as (done & H1 & [k H2] & H3 & H4).
    destruct (write_spans f spans s1) as [r s2]. simpl in H1, H3, H4.
    pose proof (Close_trace f s2) as Hcl.
    destruct (Close f s2) as [cerr s3]. simpl in Hcl. simpl.
    exists ([{| ev_call := SysOpenFile (filePath e) 1089 420; ev_err := None |}]
            ++ map (write_event f) done
            ++ [{| ev_call := SysClose f; ev_err := cerr |}]).
    rewrite Hcl, H1, Hop, !performed_app, performed_writes.
    simpl. rewrite app_nil_r, !map_map. simpl.
    rewrite <- !app_assoc. simpl.
    assert (Hfst : map (fun x : string * option error => OpWriteString x.1) done
                   = map OpWriteString (map fst done)) by now rewrite map_map.
    assert (Hsnd : map (fun x : string * option error => x.2) done = map snd done)
      by reflexivity.
    rewrite Hfst, Hsnd. repeat split; auto.
    + exists (map OpWriteString k). now rewrite H2, map_app.
    + intros Hr. now rewrite (H4 Hr).
  - exists [{| ev_call := SysOpenFile (filePath e) 1089 420; ev_err := Some err |}].
    simpl. rewrite Hop. repeat split; auto; [|discriminate].
    now exists (map OpWriteString (rendered spans)).
Qed.

Lemma FileExporter_ExportSpans_performed e ctx span rest s :
  let spans := span :: rest in
  let res := FileExporter_ExportSpans e ctx spans s in
  exists evs,
    trace res.2 = trace s ++ evs
    /\ (exists k, planned e spans = map fst (performed evs) ++ k)
    /\ res.1 = first_error (map snd (performed evs))
    /\ (res.1 = None -> map fst (performed evs) = planned e spans).
Proof.
  intros spans res. subst res. unfold FileExporter_ExportSpans, planned.
  change (length spans =? 0)%nat with false. cbv iota.
  set (dir := filepath_Dir (filePath e)).
  rewrite mkdir_needed_decide.
  destruct (decide (dir = EmptyString \/ dir = ".")) as [Hdir|Hdir].
  - simpl app. apply open_and_write_performed.
  - pose proof (MkdirAll_trace dir 493 s) as Hmk.
    destruct (MkdirAll dir 493 s) as [[err|] s0]; simpl in Hmk.
    + exists [{| ev_call := SysMkdirAll dir 493; ev_err := Some err |}].
      simpl. repeat split; auto; [|discriminate].
      now eexists.
    + destruct (open_and_write_performed e spans s0) as (evs & H1 & [k H2] & H3 & H4).
      exists ({| ev_call := SysMkdirAll dir 493; ev_err := None |} :: evs).
      split; [|split; [|split]].
      * etrans; [exact H1|]. rewrite Hmk, <- app_assoc. reflexivity.
      * exists k. simpl. f_equal. exact H2.
      * exact H3.
      * intros Hr. simpl. f_equal. exact (H4 Hr).
Qed.

(** The writes of the loop are the planned writes, made through [f]
    one after the other up to the first that fails. *)
Lemma write_spans_carries_out f spans : forall s,
  let ran := carry_out (map OpWriteString (rendered spans)) (Some f) s in
  ran.2 = (Some f, (write_spans f spans s).2)
  /\ (write_spans f spans s).1 = first_error (map snd ran.1)
  /\ exists evs,
       trace (write_spans f spans s).2 = trace s ++ evs /\ performed evs = ran.1.
Proof.
  induction spans as [|[span|] rest IH]; intros s.
  - simpl. repeat split. exists []. now rewrite app_nil_r.
  - rewrite rendered_cons_Some.
    cbn [map carry_out carry_out_op write_spans].
    pose proof (WriteString_trace f (spanToMarkdown span) s) as Htr.
    destruct (WriteString f (spanToMarkdown span) s) as [[n err] s1].
    simpl in Htr. destruct err as [err|].
    + simpl. repeat split.
      exists [{| ev_call := SysWriteString f (spanToMarkdown span);
                 ev_err := Some err |}].
      split; [exact Htr|reflexivity].
    + destruct (IH s1) as (H1 & H2 & evs & H3 & H4).
      destruct (carry_out (map OpWriteString (rendered rest)) (Some f) s1)
        as [done end_].
      simpl in H1, H2, H4. simpl. repeat split; auto.
      exists ({| ev_call := SysWriteString f (spanToMarkdown span);
                 ev_err := None |} :: evs).
      split.
      * rewrite H3, Htr, <- app_assoc. reflexivity.
      * simpl. now rewrite H4.
  - rewrite rendered_cons_None. cbn [write_spans]. apply IH.
Qed.

(** Opening the file, the writes and the deferred [Close], from any
    state, are the planned operations carried out and the file closed
    if it was opened. *)
Lemma open_and_write_carries_out e spans s0 :
  let res :=
    (let '(f, s) := OpenFile (filePath e)
                      (Z.lor (Z.lor O_APPEND O_CREATE) O_WRONLY) 420 s0 in
     match f with
     | inr err => (Some err, s)
     | inl f =>
         let '(err, s) := write_spans f spans s in
         let '(_, s) := Close f s in
         (err, s)
     end) in
  let ran := carry_out (OpOpenFile (filePath e) 1089 420
                          :: map OpWriteString (rendered spans)) None s0 in
  res.1 = first_error (map snd ran.1)
  /\ res.2 = close_opened ran.2
  /\ exists evs, trace res.2 = trace s0 ++ evs /\ performed evs = ran.1.
Proof.
  intros res ran. subst res ran.
  change (Z.lor (Z.lor O_APPEND O_CREATE) O_WRONLY) with 1089.
  cbn [carry_out carry_out_op].
  pose proof (OpenFile_trace (filePath e) 1089 420 s0) as Hop.
  destruct (OpenFile (filePath e) 1089 420 s0) as [[f|err] s1]; simpl in Hop.
  - destruct (write_spans_carries_out f spans s1) as (H1 & H2 & evs & H3 & H4).
    destruct (carry_out (map OpWriteString (rendered spans)) (Some f) s1)
      as [done end_].
    simpl in H1, H2, H4. subst end_.
    destruct (write_spans f spans s1) as [r s2]. simpl in H2, H3.
    unfold close_opened. simpl.
    pose proof (Close_trace f s2) as Hcl.
    destruct (Close f s2) as [cerr s3]. simpl in Hcl. simpl.
    repeat split; auto.
    exists ([{| ev_call := SysOpenFile (filePath e) 1089 420; ev_err := None |}]
            ++ evs ++ [{| ev_call := SysClose f; ev_err := cerr |}]).
    split.
    + rewrite Hcl, H3, Hop, <- !app_assoc. reflexivity.
    + rewrite !performed_app, H4. simpl. now rewrite app_nil_r.
  - simpl. repeat split.
    exists [{| ev_call := SysOpenFile (filePath e) 1089 420; ev_err := Some err |}].
    split; [exact Hop|reflexivity].
Qed.

Lemma carry_out_cons op ops f s :
  carry_out (op :: ops) f s
  = let '(err, (f, s)) := carry_out_op op f s in
    match err with
    | Some _ => ([(op, err)], (f, s))
    | None =>
        let '(done, end_) := carry_out ops f s in ((op, None) :: done, end_)
    end.
Proof. reflexivity. Qed.

(** A call on a non-empty batch is the plan carried out on the system
    and the file closed: result, final state and trace. *)
Lemma FileExporter_ExportSpans_carries_out e ctx span rest s :
  let spans := span :: rest in
  let res := FileExporter_ExportSpans e ctx spans s in
  let ran := carry_out (planned e spans) None s in
  res.1 = first_error (map snd ran.1)
  /\ res.2 = close_opened ran.2
  /\ performed (new_events s res.2) = ran.1.
Proof.
  intros spans res ran.
  assert (Hgoal : res.1 = first_error (map snd ran.1)
                  /\ res.2 = close_opened ran.2
                  /\ exists evs, trace res.2 = trace s ++ evs
                                 /\ performed evs = ran.1).
  { subst res ran. unfold FileExporter_ExportSpans, planned.
    change (length spans =? 0)%nat with false. cbv iota. clearbody spans.
    set (dir := filepath_Dir (filePath e)).
    rewrite mkdir_needed_decide.
    destruct (decide (dir = EmptyString \/ dir = ".")) as [Hdir|Hdir].
    - simpl app. apply open_and_write_carries_out.
    - simpl app. rewrite carry_out_cons. cbn [carry_out_op].
      pose proof (MkdirAll_trace dir 493 s) as Hmk.
      destruct (MkdirAll dir 493 s) as [[err|] s0]; simpl in Hmk.
      + simpl. repeat split.
        exists [{| ev_call := SysMkdirAll dir 493; ev_err := Some err |}].
        split; [exact Hmk|reflexivity].
      + destruct (open_and_write_carries_out e spans s0)
          as (H1 & H2 & evs & H3 & H4).
        destruct (carry_out (OpOpenFile (filePath e) 1089 420
                               :: map OpWriteString (rendered spans)) None s0)
          as [done end_].
        cbn [fst snd] in H1, H2, H4. cbn [fst snd].
        split; [exact H1|]. split; [exact H2|].
        exists ({| ev_call := SysMkdirAll dir 493; ev_err := None |} :: evs).
        split.
        * etrans; [exact H3|]. rewrite Hmk, <- app_assoc. reflexivity.
        * simpl. now rewrite H4. }
  destruct Hgoal as (H1 & H2 & evs & H3 & H4).
  split; [exact H1|]. split; [exact H2|].
  unfold new_events. rewrite H3, drop_app_length. exact H4.
Qed.

(** C4. [ExportSpans] on an empty batch returns nil and leaves the
    system as it is.  On a non-empty batch it carries out the planned
    file-system operations (creating the directory unless it is the
    current one, opening the file, writing the markdown of each non-nil
    span) on the system, one after the other up to the first that
    fails, and closes the file if it was opened: the operations its
    trace shows, with their results, are those calls with the errors
    they returned, and the state it leaves is the one they leave.  It
    returns the error of the first failing call, and nil exactly when
    every planned operation was made and succeeded. *)
Theorem FileExporter_ExportSpans_nil_iff_all_succeed e ctx span rest s :
  FileExporter_ExportSpans e ctx [] s = (None, s)
  /\ let spans := span :: rest in
     let res := FileExporter_ExportSpans e ctx spans s in
     let done := performed (new_events s res.2) in
     let ran := carry_out (planned e spans) None s in
     (exists k, planned e spans = map fst done ++ k)
     /\ res.1 = first_error (map snd done)
     /\ (res.1 = None <->
           map fst done = planned e spans /\ Forall (fun r => r = None) (map snd done))
     /\ done = ran.1
     /\ res.2 = close_opened ran.2.
Proof.
  split; [reflexivity|]. intros spans res done ran.
  destruct (FileExporter_ExportSpans_performed e ctx span rest s)
    as (evs & H1 & H2 & H3 & H4).
  fold spans in H1, H2, H3, H4. fold res in H1, H3, H4.
  destruct (FileExporter_ExportSpans_carries_out e ctx span rest s)
    as (_ & R2 & R3).
  fold spans in R2, R3. fold res in R2, R3. fold ran in R2, R3.
  assert (Hev : new_events s res.2 = evs).
  { unfold new_events. rewrite H1. apply drop_app_length. }
  subst done. split; [|split; [|split; [|split]]].
  - rewrite Hev. exact H2.
  - rewrite Hev. exact H3.
  - rewrite Hev. rewrite H3 at 1. rewrite first_error_None. split.
    + intros Hall. split; [|exact Hall]. apply H4. rewrite H3.
      now apply first_error_None.
    + tauto.
  - exact R3.
  - exact R2.
Qed.

(** C8. [ExportFiles] of the file exporter returns nil for every list
    of files and does nothing to the system: no call is made and no
    file changes. *)
Theorem FileExporter_ExportFiles_writes_nothing e ctx files s :
  let res := FileExporter_ExportFiles e ctx files s in
  res = (None, s)
  /\ new_events s res.2 = []
  /\ (forall p, ReadFile p res.2 = ReadFile p s).
Proof.
  simpl. split; [reflexivity|]. split; [|reflexivity].
  unfold new_events. apply drop_all.
Qed.



End FileExporterTheorems.


(** [TestFileExporter_ExportSpans], "should create directory if not
    exists" and "should append to existing file", on the empty file
    system: two calls, both return nil, the file holds both spans. *)
Example FileExporter_ExportSpans_twice :
  let e := NewFileExporter "tmp/subdir/nested/traces.md" in
  let r1 := FileExporter_ExportSpans (H := sample_platform) e Background
              [Some (span_with_id "span1")] empty_OS in
  let r2 := FileExporter_ExportSpans (H := sample_platform) e Background
              [Some (span_with_id "span2")] r1.2 in
  r1.1 = None /\ r2.1 = None
  /\ os.ReadFile (filePath e) r2.2
     = Some (markdown_of (H := sample_platform)
               [Some (span_with_id "span1"); Some (span_with_id "span2")])
  /\ "tmp/subdir/nested" ∈ os.dirs r2.2.
Proof. vm_compute. repeat split; auto. Qed.

(** [TestTruncateString], [TestEscapeMarkdown], [TestNewFileExporter]. *)
Example truncateString_short : truncateString "short" 10 = "short".
Proof. reflexivity. Qed.

Example truncateString_long :
  truncateString "this is a very long string" 10 = "this is a ... (truncated)".
Proof. reflexivity. Qed.

Example escapeMarkdown_pipes :
  escapeMarkdown "value|with|pipes" = "value\|with\|pipes".
Proof. reflexivity. Qed.

Example escapeMarkdown_newlines :
  escapeMarkdown ("line1" +:+ LF +:+ "line2" +:+ String CR LF +:+ "line3")
  = "line1 line2 line3".
Proof. reflexivity. Qed.

Example NewFileExporter_default :
  filePath (NewFileExporter EmptyString) = DefaultLocalExportPath
  /\ filePath (NewFileExporter "/tmp/custom_traces.md") = "/tmp/custom_traces.md".
Proof. split; reflexivity. Qed.

(** [TestFormatDuration]. *)
Example formatDuration_microseconds :
  formatDuration (500 * 1000) = "500" +:+ micro_sign +:+ "s".
Proof. reflexivity. Qed.

Example formatDuration_milliseconds : formatDuration (500 * Millisecond) = "500.00ms".
Proof. vm_compute. reflexivity. Qed.

Example formatDuration_seconds : formatDuration (2500 * Millisecond) = "2.500s".
Proof. vm_compute. reflexivity. Qed.

Example formatDuration_minutes : formatDuration (90 * Second) = "1.50m".
Proof. vm_compute. reflexivity. Qed.

(* ================================================================== *)
(** * Theorems: the bounded queue *)
(* ================================================================== *)

Section QueueTheorems.
Context {A : Type}.
Implicit Types (q : Queue A) (ops : list (queue_op A)).

Lemma held_bytes_app (l k : list (A * N)) :
  held_bytes (l ++ k) = (held_bytes l + held_bytes k)%N.
Proof. induction l as [|it l IH]; simpl; [reflexivity|]. rewrite IH. lia. Qed.

Lemma Enqueue_within_bounds q x size :
  within_bounds q -> within_bounds (Enqueue q x size).2.
Proof.
  intros (Hn & Hb & Hacc). unfold Enqueue, within_bounds.
  destruct (_ <? _)%nat eqn:Hfull; simpl; [auto|].
  destruct (_ <? _)%N eqn:Hbytes; simpl; [auto|].
  apply Nat.ltb_ge in Hfull. apply N.ltb_ge in Hbytes.
  rewrite length_app, held_bytes_app. simpl. lia.
Qed.

Lemma Dequeue_within_bounds q :
  within_bounds q -> within_bounds (Dequeue q).2.
Proof.
  intros (Hn & Hb & Hacc). unfold Dequeue, within_bounds.
  destruct (items q) as [|[x size] rest] eqn:Hitems; simpl.
  - rewrite Hitems. auto.
  - simpl in Hn, Hb, Hacc. lia.
Qed.

Lemma fold_within_bounds ops q :
  within_bounds q -> within_bounds (fold_left apply_op ops q).
Proof.
  revert q. induction ops as [|op ops IH]; intros q Hq; simpl; [exact Hq|].
  apply IH. destruct op; simpl.
  - now apply Enqueue_within_bounds.
  - now apply Dequeue_within_bounds.
Qed.

Lemma fold_limits ops q :
  max_items (fold_left apply_op ops q) = max_items q
  /\ max_bytes (fold_left apply_op ops q) = max_bytes q.
Proof.
  revert q. induction ops as [|op ops IH]; intros q; simpl; [auto|].
  destruct (IH (apply_op q op)) as [-> ->].
  destruct op; simpl; unfold Enqueue, Dequeue.
  - destruct (_ || _); auto.
  - destruct (items q) as [|[x size] rest]; auto.
Qed.

(** C7. Whatever enqueues and dequeues a queue created with the limits
    [n] and [b] has seen, it holds at most [n] items and at most [b]
    bytes, and its byte counter is the sum over its items.  In such a
    state [Enqueue] returns at once: it accepts the item at the end of
    the queue when both limits allow it, and otherwise leaves the items
    as they are and counts a drop. *)
Theorem bounded_queue_within_limits (n : nat) (b : N) ops :
  let q := queue_after n b ops in
  (length (items q) <= n)%nat
  /\ (held_bytes (items q) <= b)%N
  /\ total_bytes q = held_bytes (items q)
  /\ forall x size,
       let exceeds := (n <? length (items q) + 1)%nat
                      || (b <? held_bytes (items q) + size)%N in
       (Enqueue q x size).1 = negb exceeds
       /\ items (Enqueue q x size).2
          = (if exceeds then items q else items q ++ [(x, size)])
       /\ dropped (Enqueue q x size).2
          = (if exceeds then S (dropped q) else dropped q).
Proof.
  intros q.
  assert (Hq : within_bounds q).
  { apply fold_within_bounds. unfold within_bounds, new_queue. simpl. lia. }
  destruct (fold_limits ops (new_queue n b)) as [Hn Hb]. fold (queue_after n b ops) in Hn, Hb.
  fold q in Hn, Hb. simpl in Hn, Hb.
  destruct Hq as (H1 & H2 & H3). rewrite Hn in H1. rewrite Hb in H2.
  split; [exact H1|]. split; [exact H2|]. split; [exact H3|].
  intros x size exceeds. subst exceeds. unfold Enqueue.
  rewrite Hn, Hb, H3. destruct (_ || _); simpl; auto.
Qed.

End QueueTheorems.

(* ================================================================== *)
(** * Theorems: the span processor *)
(* ================================================================== *)

Section ProcessorTheorems.
Implicit Types (p : Processor) (x : nat) (l : list pipeline_event).

Lemma count_events_app f l k :
  count_events f (l ++ k) = (count_events f l + count_events f k)%nat.
Proof. unfold count_events. now rewrite List.filter_app, length_app. Qed.

Lemma count_events_map {B} f (g : B -> pipeline_event) (l : list B) :
  count_events f (map g l) = length (List.filter (fun b => f (g b)) l).
Proof.
  unfold count_events. induction l as [|b l IH]; simpl; [reflexivity|].
  destruct (f (g b)); simpl; congruence.
Qed.

Lemma count_events_none f l :
  (forall ev, In ev l -> f ev = false) -> count_events f l = 0%nat.
Proof.
  unfold count_events. induction l as [|ev l IH]; intros Hf; simpl; [reflexivity|].
  rewrite (Hf ev) by now left. apply IH. intros ev' Hin. apply Hf. now right.
Qed.

Lemma count_events_one f ev :
  count_events f [ev] = if f ev then 1%nat else 0%nat.
Proof. unfold count_events. simpl. now destruct (f ev). Qed.

Lemma count_is_enqueue x l :
  count_events (is_enqueue x) l
  = (count_events (is_enqueue_on SQ x) l + count_events (is_enqueue_on SRQ x) l)%nat.
Proof.
  unfold count_events. induction l as [|ev l IH]; simpl; [reflexivity|].
  unfold is_enqueue at 1.
  destruct ev as [[|] y a|q y ok|y]; simpl; try exact IH;
    destruct (x =? y)%nat; simpl; lia.
Qed.

Lemma no_enqueue_after_retry_app x l new :
  no_enqueue_after_retry x l ->
  ((0 < count_events (is_export_from SRQ x) l)%nat ->
   count_events (is_enqueue x) new = 0%nat) ->
  (count_events (is_export_from SRQ x) new = 0%nat
   \/ count_events (is_enqueue x) new = 0%nat) ->
  no_enqueue_after_retry x (l ++ new).
Proof.
  intros Hl Hnew Hself before after Heq Hpos.
  apply app_eq_inv in Heq as [[k [-> ->]]|[k [-> ->]]].
  - rewrite count_events_app.
    rewrite (Hl before k eq_refl Hpos), Hnew; [reflexivity|].
    rewrite count_events_app. lia.
  - rewrite count_events_app in Hpos, Hself. rewrite count_events_app in Hself.
    destruct (count_events (is_export_from SRQ x) l) eqn:Hc.
    + lia.
    + rewrite count_events_app in Hnew. specialize (Hnew ltac:(lia)). lia.
Qed.

Lemma pending_NoDup x future : NoDup future -> (pending x future <= 1)%nat.
Proof.
  unfold pending. induction 1 as [|y future Hy _ IH]; simpl; [lia|].
  destruct (Nat.eqb_spec x y) as [->|Hne]; simpl; [|exact IH].
  assert (Hz : List.filter (fun z => (y =? z)%nat) future = []).
  { clear IH. induction future as [|z future IH]; simpl; [reflexivity|].
    destruct (Nat.eqb_spec y z) as [->|_].
    - exfalso. apply Hy. now left.
    - apply IH. intros Hin. apply Hy. now right. }
  rewrite Hz. simpl. lia.
Qed.

Lemma occurrences_app x (l k : list (Span * N)) :
  occurrences x (l ++ k) = (occurrences x l + occurrences x k)%nat.
Proof. unfold occurrences. now rewrite List.filter_app, length_app. Qed.

Lemma Enqueue_occurrences (q : Queue Span) s size x :
  occurrences x (items (Enqueue q s size).2)
  = (occurrences x (items q)
     + (if (Enqueue q s size).1 && (x =? ident s)%nat then 1 else 0))%nat.
Proof.
  unfold Enqueue. destruct (_ || _); simpl; [lia|].
  rewrite occurrences_app. unfold occurrences at 2. simpl.
  destruct (x =? ident s)%nat; simpl; lia.
Qed.

Lemma take_batch_items {A} n (q : Queue A) :
  items q = (take_batch n q).1 ++ items (take_batch n q).2.
Proof.
  revert q. induction n as [|n IH]; intros q; simpl; [reflexivity|].
  unfold Dequeue. destruct (items q) as [|[x size] rest] eqn:Hq; simpl.
  - now rewrite Hq.
  - match goal with |- context [take_batch n ?q'] =>
      specialize (IH q'); destruct (take_batch n q') as [batch q''] end.
    simpl in *. now rewrite IH.
Qed.

(** A finished span: one [Enqueue] on SQ. *)
Lemma on_span_end_accounts x p s future :
  span_accounts x p (ident s :: future) ->
  span_accounts x (on_span_end p s) future.
Proof.
  unfold span_accounts, on_span_end.
  intros (H1 & H2 & H3 & H4 & H5 & H6 & H7 & H8).
  pose proof (Enqueue_occurrences (sq p) s (byte_size s) x) as Hocc.
  destruct (Enqueue (sq p) s (byte_size s)) as [accepted q]. simpl in *.
  rewrite !count_events_app, !count_events_one. simpl.
  unfold pending in H1. simpl in H1.
  assert (Hord : no_enqueue_after_retry x
                   (events p ++ [EvEnqueue SQ (ident s) accepted])).
  { apply no_enqueue_after_retry_app; [exact H8| |left; reflexivity].
    intros Hpos. rewrite count_is_enqueue, !count_events_one. simpl.
    destruct (x =? ident s)%nat; simpl in *; [lia|reflexivity]. }
  destruct (x =? ident s)%nat, accepted; simpl in *;
    repeat split; try exact Hord; unfold pending; lia.
Qed.

(** The re-enqueueing loop: one [Enqueue] on SRQ per span of the
    batch, and nothing else. *)
Lemma retry_spans_events x p batch :
  exists new a,
    events (retry_spans p batch) = events p ++ new
    /\ sq (retry_spans p batch) = sq p
    /\ occurrences x (items (srq (retry_spans p batch)))
       = (occurrences x (items (srq p)) + a)%nat
    /\ count_events (is_accepted_on SRQ x) new = a
    /\ (a <= occurrences x batch)%nat
    /\ count_events (is_enqueue_on SRQ x) new = occurrences x batch
    /\ Forall (fun ev => exists y b, ev = EvEnqueue SRQ y b) new.
Proof.
  unfold retry_spans. revert p.
  induction batch as [|[s size] batch IH]; intros p; simpl.
  - exists [], 0%nat. rewrite app_nil_r. repeat split; auto.
  - pose proof (Enqueue_occurrences (srq p) s (byte_size s) x) as Hocc.
    destruct (Enqueue (srq p) s (byte_size s)) as [accepted q]. simpl in Hocc.
    match goal with |- context [fold_left _ batch ?p1] =>
      destruct (IH p1) as (new & a & E1 & E2 & E3 & E4 & E5 & E6 & E7) end.
    simpl in E1, E2, E3.
    exists (EvEnqueue SRQ (ident s) accepted :: new),
           ((if accepted && (x =? ident s)%nat then 1 else 0) + a)%nat.
    rewrite E1, E2, E3, Hocc, <- app_assoc. simpl.
    unfold occurrences, count_events in *. simpl.
    split; [reflexivity|]. split; [reflexivity|]. split; [lia|].
    destruct (x =? ident s)%nat, accepted; simpl;
      (split; [lia|]); (split; [lia|]); (split; [lia|]);
      constructor; eauto.
Qed.

Lemma exported_counts x q from ok (batch : list (Span * N)) :
  let new := map (fun it : Span * N => EvExport from (ident it.1) ok) batch in
  count_events (is_export_from q x) new
  = (if queue_id_eqb q from then occurrences x batch else 0%nat)
  /\ count_events (is_failure_from q x) new
     = (if queue_id_eqb q from && negb ok then occurrences x batch else 0%nat)
  /\ count_events (is_enqueue_on q x) new = 0%nat
  /\ count_events (is_accepted_on q x) new = 0%nat.
Proof.
  unfold count_events, occurrences.
  induction batch as [|[s size] batch (IH1 & IH2 & IH3 & IH4)]; simpl.
  - destruct (queue_id_eqb q from), ok; auto.
  - simpl in *. rewrite IH3, IH4.
    destruct q, from, ok, (x =? ident s)%nat; simpl in *;
      rewrite ?IH1, ?IH2; auto.
Qed.

Lemma dropped_counts x q (batch : list (Span * N)) :
  let new := map (fun it : Span * N => EvDrop (ident it.1)) batch in
  count_events (is_export_from q x) new = 0%nat
  /\ count_events (is_failure_from q x) new = 0%nat
  /\ count_events (is_enqueue_on q x) new = 0%nat
  /\ count_events (is_accepted_on q x) new = 0%nat.
Proof.
  repeat split; apply count_events_none; intros ev Hin;
    apply in_map_iff in Hin as [it [<- _]]; reflexivity.
Qed.

Lemma enqueued_on_SRQ_counts x q new :
  Forall (fun ev => exists y b, ev = EvEnqueue SRQ y b) new ->
  count_events (is_export_from q x) new = 0%nat
  /\ count_events (is_failure_from q x) new = 0%nat
  /\ count_events (is_enqueue_on SQ x) new = 0%nat
  /\ count_events (is_accepted_on SQ x) new = 0%nat.
Proof.
  intros Hall. rewrite Forall_forall in Hall.
  repeat split; apply count_events_none; intros ev Hin;
    destruct (Hall ev) as (y & b & ->); try reflexivity;
    now apply list_elem_of_In.
Qed.

(** The export of a batch from either queue. *)
Lemma export_batch_accounts x p from n ok future :
  span_accounts x p future ->
  span_accounts x (export_batch p from n ok) future.
Proof.
  unfold span_accounts, export_batch.
  intros (H1 & H2 & H3 & H4 & H5 & H6 & H7 & H8).
  pose proof (take_batch_items n (match from with SQ => sq p | SRQ => srq p end))
    as Hitems.
  destruct (take_batch n _) as [batch q]. simpl in Hitems.
  set (exported := map (fun it : Span * N => EvExport from (ident it.1) ok) batch).
  destruct (exported_counts x SQ from ok batch) as (XS1 & XS2 & XS3 & XS4).
  destruct (exported_counts x SRQ from ok batch) as (XR1 & XR2 & XR3 & XR4).
  fold exported in XS1, XS2, XS3, XS4, XR1, XR2, XR3, XR4.
  assert (Hexp_enq : count_events (is_enqueue x) exported = 0%nat).
  { rewrite count_is_enqueue. lia. }
  assert (Hord1 : no_enqueue_after_retry x (events p ++ exported)).
  { apply no_enqueue_after_retry_app; auto. }
  destruct from; simpl in *.
  - (* from SQ *)
    rewrite Hitems, occurrences_app in H2.
    destruct ok; simpl in *.
    + rewrite !count_events_app. repeat split; try exact Hord1; lia.
    + destruct (retry_spans_events x
                  {| sq := q; srq := srq p; events := events p ++ exported |} batch)
        as (new & a & E1 & E2 & E3 & E4 & E5 & E6 & E7).
      simpl in E1, E2, E3. rewrite E1, E2, E3.
      destruct (enqueued_on_SRQ_counts x SQ new E7) as (N1 & N2 & N3 & N4).
      destruct (enqueued_on_SRQ_counts x SRQ new E7) as (M1 & M2 & _ & _).
      assert (Hord2 : no_enqueue_after_retry x ((events p ++ exported) ++ new)).
      { apply no_enqueue_after_retry_app; [exact Hord1| |left; exact M1].
        rewrite count_events_app, count_is_enqueue. intros Hpos. lia. }
      rewrite !count_events_app. repeat split; try exact Hord2; lia.
  - (* from SRQ *)
    rewrite Hitems, occurrences_app in H6.
    destruct ok; simpl in *.
    + rewrite !count_events_app. repeat split; try exact Hord1; lia.
    + set (drops := map (fun it : Span * N => EvDrop (ident it.1)) batch).
      destruct (dropped_counts x SQ batch) as (D1 & D2 & D3 & D4).
      destruct (dropped_counts x SRQ batch) as (F1 & F2 & F3 & F4).
      fold drops in D1, D2, D3, D4, F1, F2, F3, F4.
      assert (Hord2 : no_enqueue_after_retry x ((events p ++ exported) ++ drops)).
      { apply no_enqueue_after_retry_app; [exact Hord1| |left; exact F1].
        rewrite count_is_enqueue. intros _. lia. }
      rewrite !count_events_app. repeat split; try exact Hord2; lia.
Qed.

Lemma pipeline_run_accounts x steps : forall p,
  span_accounts x p (finished steps) ->
  span_accounts x (pipeline_run p steps) [].
Proof.
  unfold pipeline_run.
  induction steps as [|[s|from n ok] steps IH]; intros p Hp; simpl.
  - exact Hp.
  - apply IH. now apply on_span_end_accounts.
  - apply IH. now apply export_batch_accounts.
Qed.

Lemma failures_are_exports q x l :
  (count_events (is_failure_from q x) l <= count_events (is_export_from q x) l)%nat.
Proof.
  unfold count_events. induction l as [|ev l IH]; simpl; [lia|].
  destruct ev as [q' y a|q' y ok|y]; simpl; try exact IH.
  destruct (queue_id_eqb q q' && (x =? y)%nat), ok; simpl; lia.
Qed.

Lemma new_processor_accounts x a b c d future :
  NoDup future -> span_accounts x (new_processor a b c d) future.
Proof.
  intros Hnd. unfold span_accounts, new_processor. simpl.
  pose proof (pending_NoDup x future Hnd).
  unfold count_events, occurrences. simpl. repeat split; try lia.
  intros before after Heq _. symmetry in Heq.
  apply app_eq_nil in Heq as [_ ->]. reflexivity.
Qed.

(** The re-enqueueing loop is one [Enqueue] on SRQ per span of the
    batch, in order, and its events tell what each [Enqueue] answered. *)
Lemma retry_spans_offered batch : forall p,
  srq (retry_spans p batch) = offered (srq p) batch
  /\ events (retry_spans p batch) = events p ++ offers_log (srq p) batch.
Proof.
  unfold retry_spans, offered.
  induction batch as [|it batch IH]; intros p; simpl.
  - now rewrite app_nil_r.
  - destruct (Enqueue (srq p) it.1 (byte_size it.1)) as [accepted q] eqn:Hq.
    match goal with |- context [fold_left _ batch ?p1] =>
      destruct (IH p1) as [E1 E2] end.
    simpl in E1, E2. rewrite E1, E2, <- app_assoc. auto.
Qed.

(** With room for all of them, every span offered is placed, behind
    the items already held. *)
Lemma offered_with_room batch : forall q,
  has_room q batch -> items (offered q batch) = items q ++ as_items batch.
Proof.
  unfold offered, has_room, as_items.
  induction batch as [|it batch IH]; intros q [Hn Hb]; simpl in *.
  - now rewrite app_nil_r.
  - unfold Enqueue at 2.
    destruct (Nat.ltb_spec (max_items q) (length (items q) + 1)) as [Hlt|_];
      [lia|].
    destruct (N.ltb_spec (max_bytes q) (total_bytes q + byte_size it.1)) as [Hlt|_];
      [lia|].
    simpl. rewrite IH; simpl.
    + now rewrite <- app_assoc.
    + rewrite length_app. simpl. split; lia.
Qed.

(** C6. A span is finished at most once.  Whatever the pipeline then
    does: each failed export of span [x] from SQ is followed by exactly
    one [Enqueue] of [x] on SRQ, and there is at most one such failure;
    [x] is held in SRQ or exported from it exactly as often as SRQ
    accepted it, which is at most as often as it was offered; once an
    export of [x] from SRQ has failed, no [Enqueue] of [x] on any queue
    follows.  A failed export from SQ offers the spans of its batch to
    SRQ one by one through [Enqueue], its events telling what [Enqueue]
    answered; when SRQ has room for the batch, all of them are placed
    on it. *)
Theorem span_retried_once_then_dropped
    (sq_items srq_items : nat) (sq_bytes srq_bytes : N) steps x :
  NoDup (finished steps) ->
  let p := pipeline_run (new_processor sq_items srq_items sq_bytes srq_bytes) steps in
  let n f := count_events f (events p) in
  n (is_enqueue_on SRQ x) = n (is_failure_from SQ x)
  /\ (n (is_failure_from SQ x) <= 1)%nat
  /\ (occurrences x (items (srq p)) + n (is_export_from SRQ x)
      = n (is_accepted_on SRQ x))%nat
  /\ (n (is_accepted_on SRQ x) <= n (is_enqueue_on SRQ x))%nat
  /\ (forall before after,
        events p = before ++ after ->
        (0 < count_events (is_failure_from SRQ x) before)%nat ->
        count_events (is_enqueue x) after = 0%nat)
  /\ (forall k,
        let batch := (take_batch k (sq p)).1 in
        let p' := export_batch p SQ k false in
        srq p' = offered (srq p) batch
        /\ events p'
           = events p
             ++ map (fun it : Span * N => EvExport SQ (ident it.1) false) batch
             ++ offers_log (srq p) batch
        /\ (has_room (srq p) batch ->
            items (srq p') = items (srq p) ++ as_items batch)).
Proof.
  intros Hnd p n.
  pose proof (pipeline_run_accounts x steps _
                (new_processor_accounts x sq_items srq_items sq_bytes srq_bytes
                   _ Hnd)) as Hacc.
  fold p in Hacc. unfold span_accounts in Hacc. unfold pending in Hacc.
  simpl in Hacc. destruct Hacc as (H1 & H2 & H3 & H4 & H5 & H6 & H7 & H8).
  subst n. cbn beta.
  split; [exact H4|]. split; [lia|]. split; [exact H6|]. split; [exact H7|].
  split.
  - intros before after Heq Hpos. apply (H8 before after Heq).
    pose proof (failures_are_exports SRQ x before). lia.
  - intros k batch p'. subst p' batch. unfold export_batch.
    destruct (take_batch k (sq p)) as [batch q]. cbn [fst].
    match goal with |- context [retry_spans ?p1 batch] =>
      destruct (retry_spans_offered batch p1) as [E1 E2] end.
    cbn [srq events] in E1, E2.
    split; [exact E1|]. split.
    + rewrite E2, <- app_assoc. reflexivity.
    + intros Hroom. rewrite E1. now apply offered_with_room.
Qed.

End ProcessorTheorems.

(** Scenario S3 of the specification, "retry once then drop": the
    exporter fails every call, three spans are finished; each is
    submitted twice, once from SQ and once from SRQ, and then dropped. *)
Lemma span_retried_once_then_dropped_witness :
  let steps := [StepSpanEnd {| ident := 1; byte_size := 10 |};
                StepSpanEnd {| ident := 2; byte_size := 10 |};
                StepSpanEnd {| ident := 3; byte_size := 10 |};
                StepExport SQ 100 false; StepExport SRQ 50 false;
                StepExport SQ 100 false; StepExport SRQ 50 false] in
  let p := pipeline_run (new_processor 1024 512 4194304 4194304) steps in
  NoDup (finished steps)
  /\ events p
     = [EvEnqueue SQ 1 true; EvEnqueue SQ 2 true; EvEnqueue SQ 3 true;
        EvExport SQ 1 false; EvExport SQ 2 false; EvExport SQ 3 false;
        EvEnqueue SRQ 1 true; EvEnqueue SRQ 2 true; EvEnqueue SRQ 3 true;
        EvExport SRQ 1 false; EvExport SRQ 2 false; EvExport SRQ 3 false;
        EvDrop 1; EvDrop 2; EvDrop 3]
  /\ count_events (is_enqueue_on SRQ 2) (events p)
     = count_events (is_failure_from SQ 2) (events p)
  /\ (count_events (is_failure_from SQ 2) (events p) <= 1)%nat.
Proof.
  intros steps p.
  assert (Hnd : NoDup (finished steps)).
  { apply (bool_decide_unpack _). vm_compute. exact I. }
  split; [exact Hnd|]. split; [vm_compute; reflexivity|].
  destruct (span_retried_once_then_dropped 1024 512 4194304 4194304 steps 2 Hnd)
    as (H1 & H2 & _).
  split; [exact H1 | exact H2].
Defined.

(** With a retry queue of one place, the second of two failed spans is
    offered to SRQ, once, and dropped there. *)
Example retry_queue_full :
  let steps := [StepSpanEnd {| ident := 1; byte_size := 10 |};
                StepSpanEnd {| ident := 2; byte_size := 10 |};
                StepExport SQ 100 false] in
  let p := pipeline_run (new_processor 1024 1 4194304 4194304) steps in
  List.filter (is_enqueue_on SRQ 2) (events p) = [EvEnqueue SRQ 2 false]
  /\ occurrences 2 (items (srq p)) = 0%nat
  /\ dropped (srq p) = 1%nat.
Proof. vm_compute. auto. Qed.

(** The retry queue is bounded too.  When the second batch fails, SRQ
    holds the 3 MiB of the first: span 3, accepted on SQ and failed from
    there, is offered to SRQ once, refused for want of room, and so is
    never placed on it. *)
Lemma span_dropped_when_retry_queue_is_full :
  let p := pipeline_run sample_processor outage in
  NoDup (finished outage)
  /\ count_events (is_accepted_on SQ 3) (events p) = 1%nat
  /\ count_events (is_failure_from SQ 3) (events p) = 1%nat
  /\ count_events (is_enqueue_on SRQ 3) (events p) = 1%nat
  /\ count_events (is_accepted_on SRQ 3) (events p) = 0%nat
  /\ occurrences 3 (items (srq p)) = 0%nat
  /\ map (fun it : Span * N => ident it.1) (items (srq p)) = [1; 2]%nat
  /\ ~ placed_on_SRQ_once p 3.
Proof.
  intros p.
  split; [apply (bool_decide_unpack _); vm_compute; exact I|].
  assert (Hfail : count_events (is_failure_from SQ 3) (events p) = 1%nat)
    by (vm_compute; reflexivity).
  assert (Hacc : count_events (is_accepted_on SRQ 3) (events p) = 0%nat)
    by (vm_compute; reflexivity).
  split; [vm_compute; reflexivity|]. split; [exact Hfail|].
  split; [vm_compute; reflexivity|]. split; [exact Hacc|].
  split; [vm_compute; reflexivity|]. split; [vm_compute; reflexivity|].
  unfold placed_on_SRQ_once. rewrite Hfail, Hacc. intros Hc.
  specialize (Hc (le_n 1)). discriminate Hc.
Qed.

(* ================================================================== *)
(** * Theorems: the wire carrier *)
(* ================================================================== *)

Section SplitJoin.
Variable sep : ascii.

Lemma split_on_nonempty (s : string) : split_on sep s <> [].
Proof.
  destruct s as [|c s]; simpl; [discriminate|].
  destruct (Ascii.eqb c sep); [discriminate|].
  destruct (split_on sep s); discriminate.
Qed.

Lemma join_cons (x y : string) (l : list string) :
  join sep (x :: y :: l) = x +:+ String sep (join sep (y :: l)).
Proof. reflexivity. Qed.

(** Joining the segments of a string gives the string back. *)
Lemma join_split_on (s : string) : join sep (split_on sep s) = s.
Proof.
  induction s as [|c s IH]; [reflexivity|]. simpl split_on.
  destruct (Ascii.eqb_spec c sep) as [->|Hne].
  - pose proof (split_on_nonempty s) as Hs.
    destruct (split_on sep s) as [|y l]; [congruence|].
    rewrite join_cons, IH. reflexivity.
  - pose proof (split_on_nonempty s) as Hs.
    destruct (split_on sep s) as [|y [|z l]]; [congruence|..].
    + simpl in *. congruence.
    + rewrite join_cons in *. rewrite os_facts.string_app_cons. congruence.
Qed.

Lemma split_on_free (x : string) :
  contains sep x = false -> split_on sep x = [x].
Proof.
  induction x as [|c x IH]; simpl; [reflexivity|].
  destruct (Ascii.eqb c sep); simpl; [discriminate|].
  intros Hx. now rewrite (IH Hx).
Qed.

Lemma split_on_app_sep (x rest : string) :
  contains sep x = false ->
  split_on sep (x +:+ String sep rest) = x :: split_on sep rest.
Proof.
  induction x as [|c x IH]; intros Hx.
  - rewrite os_facts.string_app_nil_l. simpl. now rewrite Ascii.eqb_refl.
  - rewrite os_facts.string_app_cons. simpl in *.
    destruct (Ascii.eqb c sep); simpl in *; [discriminate|].
    now rewrite (IH Hx).
Qed.

(** Splitting a join gives the segments back, when there is at least
    one and none holds the separator. *)
Lemma split_on_join (l : list string) :
  l <> [] -> Forall (fun x => contains sep x = false) l ->
  split_on sep (join sep l) = l.
Proof.
  intros Hne Hall. induction Hall as [|x l Hx Hall IH]; [congruence|].
  destruct l as [|y l].
  - simpl. now apply split_on_free.
  - rewrite join_cons, split_on_app_sep by exact Hx.
    f_equal. apply IH. discriminate.
Qed.

Lemma contains_app (a b : string) :
  contains sep (a +:+ b) = contains sep a || contains sep b.
Proof.
  induction a as [|c a IH]; [reflexivity|].
  rewrite os_facts.string_app_cons. simpl. rewrite IH. now rewrite orb_assoc.
Qed.

End SplitJoin.

Ltac each_byte c := destruct c as [[] [] [] [] [] [] [] []].

Lemma unescape_escape_byte (c : ascii) (rest : string) :
  url_unescape (escape_byte c +:+ rest) = String c <$> url_unescape rest.
Proof. each_byte c; reflexivity. Qed.

Lemma escape_byte_free (c : ascii) :
  contains "," (escape_byte c) = false /\ contains "=" (escape_byte c) = false.
Proof. each_byte c; split; reflexivity. Qed.

Lemma lower_hex_not_dash (c : ascii) :
  is_lower_hex c = true -> Ascii.eqb c "-" = false.
Proof. each_byte c; intros Hc; solve [reflexivity | discriminate Hc]. Qed.

(** Decoding undoes encoding. *)
Lemma url_unescape_escape (s : string) : url_unescape (url_escape s) = Some s.
Proof.
  induction s as [|c s IH]; [reflexivity|].
  simpl url_escape. rewrite unescape_escape_byte, IH. reflexivity.
Qed.

Lemma url_escape_free (s : string) :
  contains "," (url_escape s) = false /\ contains "=" (url_escape s) = false.
Proof.
  induction s as [|c s [IH1 IH2]]; [split; reflexivity|].
  simpl url_escape. rewrite !contains_app, IH1, IH2.
  destruct (escape_byte_free c) as [-> ->]. split; reflexivity.
Qed.

Lemma all_lower_hex_no_dash (s : string) :
  all_lower_hex s = true -> contains "-" s = false.
Proof.
  induction s as [|c s IH]; simpl; [reflexivity|].
  intros [Hc Hs]%andb_true_iff. now rewrite (lower_hex_not_dash c Hc), (IH Hs).
Qed.

Lemma hex_string_no_dash (n : nat) (s : string) :
  hex_string n s = true -> contains "-" s = false.
Proof. intros [_ Hs]%andb_true_iff. now apply all_lower_hex_no_dash. Qed.

Lemma parse_item_format (kv : string * string) :
  parse_item (format_item kv) = Some kv.
Proof.
  destruct kv as [k v]. unfold parse_item, format_item. simpl.
  destruct (url_escape_free k) as [_ Hk]. destruct (url_escape_free v) as [_ Hv].
  rewrite split_on_app_sep by exact Hk. rewrite split_on_free by exact Hv.
  now rewrite !url_unescape_escape.
Qed.

Lemma mapM_parse_items (l : list (string * string)) :
  mapM parse_item (map format_item l) = Some l.
Proof.
  induction l as [|kv l IH]; [reflexivity|].
  simpl. rewrite parse_item_format. simpl. rewrite IH. reflexivity.
Qed.

Lemma format_item_no_comma (kv : string * string) :
  contains "," (format_item kv) = false.
Proof.
  unfold format_item. rewrite contains_app. simpl.
  destruct (url_escape_free kv.1) as [-> _].
  destruct (url_escape_free kv.2) as [-> _]. reflexivity.
Qed.

Lemma format_item_not_empty (kv : string * string) (rest : string) :
  format_item kv +:+ rest <> EmptyString.
Proof.
  unfold format_item. destruct (url_escape kv.1); discriminate.
Qed.

(** The baggage survives formatting and parsing. *)
Lemma parse_format_tracestate (baggage : gmap string string) :
  parse_tracestate (format_tracestate baggage) = baggage.
Proof.
  unfold parse_tracestate, format_tracestate.
  destruct (map_to_list baggage) as [|kv l] eqn:Hl.
  - apply map_to_list_empty_iff in Hl. now subst.
  - assert (Hne : join "," (map format_item (kv :: l)) <> EmptyString).
    { simpl map. destruct (map format_item l) as [|y l'].
      - simpl. rewrite <- (os_facts.string_app_nil_r (format_item kv)).
        apply format_item_not_empty.
      - rewrite join_cons. apply format_item_not_empty. }
    apply String.eqb_neq in Hne. rewrite Hne.
    rewrite split_on_join.
    + rewrite mapM_parse_items, <- Hl. apply list_to_map_to_list.
    + discriminate.
    + apply Forall_forall. intros x Hx.
      apply list_elem_of_In, in_map_iff in Hx as [kv' [<- _]].
      apply format_item_no_comma.
Qed.

Section WireCarrierTheorems.
Context `{WireFormat}.

(** The parser accepts exactly the traceparent values of the shape the
    specification gives. *)
Lemma parse_traceparent_Some (h trace_id span_id : string) :
  parse_traceparent h = Some (trace_id, span_id) ->
  exists v f,
    h = v +:+ String "-" (trace_id +:+ String "-" (span_id +:+ String "-" f))
    /\ hex_string 2 v = true /\ known_version v = true
    /\ hex_string 32 trace_id = true /\ hex_string 16 span_id = true
    /\ hex_string 2 f = true.
Proof.
  unfold parse_traceparent. pose proof (join_split_on "-" h) as Hj.
  destruct (split_on "-" h) as [|v [|t [|s0 [|f [|]]]]]; try discriminate.
  destruct (hex_string 2 v) eqn:H1; simpl; [|discriminate].
  destruct (known_version v) eqn:H2; simpl; [|discriminate].
  destruct (hex_string 32 t) eqn:H3; simpl; [|discriminate].
  destruct (hex_string 16 s0) eqn:H4; simpl; [|discriminate].
  destruct (hex_string 2 f) eqn:H5; simpl; [|discriminate].
  intros [= <- <-]. exists v, f. rewrite <- Hj. repeat split; auto.
Qed.

Lemma parse_traceparent_well_formed (v trace_id span_id f : string) :
  hex_string 2 v = true -> known_version v = true ->
  hex_string 32 trace_id = true -> hex_string 16 span_id = true ->
  hex_string 2 f = true ->
  parse_traceparent (join "-" [v; trace_id; span_id; f]) = Some (trace_id, span_id).
Proof.
  intros H1 H2 H3 H4 H5. unfold parse_traceparent.
  rewrite split_on_join.
  - now rewrite H1, H2, H3, H4, H5.
  - discriminate.
  - repeat constructor; eapply hex_string_no_dash; eassumption.
Qed.

Lemma well_formed_parses (h : string) :
  well_formed_traceparent h ->
  exists trace_id span_id, parse_traceparent h = Some (trace_id, span_id).
Proof.
  intros (v & t & s0 & f & -> & H1 & H2 & H3 & H4 & H5).
  exists t, s0. now apply (parse_traceparent_well_formed v t s0 f).
Qed.

Lemma parse_traceparent_None (h : string) :
  ~ well_formed_traceparent h -> parse_traceparent h = None.
Proof.
  intros Hbad. destruct (parse_traceparent h) as [[t s0]|] eqn:Hp; [|reflexivity].
  exfalso. apply Hbad. apply parse_traceparent_Some in Hp as (v & f & Hp).
  now exists v, t, s0, f.
Qed.

(** C5. With a version the parser knows, [GetSpanFromHeader] recovers
    from the headers [ToHeader] writes exactly the trace id, the span
    id and the baggage they were made from, for every trace id of 32
    and span id of 16 lowercase hexadecimal digits and every baggage
    map.  On headers whose traceparent is missing or not of the
    specified shape it returns the [HeaderParent] error, and no span
    context. *)
Theorem header_codec_round_trip :
  (forall (trace_id span_id : string) (baggage : gmap string string),
      hex_string 2 version = true -> known_version version = true ->
      hex_string 2 flags = true ->
      hex_string 32 trace_id = true -> hex_string 16 span_id = true ->
      GetSpanFromHeader (ToHeader trace_id span_id baggage)
      = inr {| sc_trace_id := trace_id; sc_span_id := span_id;
               sc_baggage := baggage |})
  /\ (forall headers,
        headers !! HeaderTraceparent = None ->
        GetSpanFromHeader headers = inl HeaderParent)
  /\ (forall headers h,
        headers !! HeaderTraceparent = Some h ->
        ~ well_formed_traceparent h ->
        GetSpanFromHeader headers = inl HeaderParent).
Proof.
  split; [|split].
  - intros trace_id span_id baggage Hv Hk Hf Ht Hs.
    unfold GetSpanFromHeader, ToHeader.
    rewrite lookup_insert_eq. unfold format_traceparent.
    rewrite (parse_traceparent_well_formed _ _ _ _ Hv Hk Ht Hs Hf).
    rewrite lookup_insert_ne by discriminate. rewrite lookup_insert_eq.
    now rewrite parse_format_tracestate.
  - intros headers Hnone. unfold GetSpanFromHeader. now rewrite Hnone.
  - intros headers h Hh Hbad. unfold GetSpanFromHeader.
    now rewrite Hh, (parse_traceparent_None h Hbad).
Qed.

End WireCarrierTheorems.

(** Scenario S4 of the specification, "header round trip", and a
    traceparent with segments of the wrong length. *)
Lemma header_codec_round_trip_witness :
  let trace_id := "aaaaaaaaaaaaaaaaaaaaaaaaaaaaaaaa" in
  let span_id := "bbbbbbbbbbbbbbbb" in
  let baggage : gmap string string := <["k" := "v"]> (<["x" := "y z"]> ∅) in
  let bad : gmap string string := <[HeaderTraceparent := "00-abc-def-01"]> ∅ in
  hex_string 32 trace_id = true /\ hex_string 16 span_id = true
  /\ ToHeader (H := w3c_format) trace_id span_id baggage !! HeaderTracestate
     = Some "k=v,x=y%20z"
  /\ GetSpanFromHeader (H := w3c_format)
       (ToHeader (H := w3c_format) trace_id span_id baggage)
     = inr {| sc_trace_id := trace_id; sc_span_id := span_id; sc_baggage := baggage |}
  /\ ~ well_formed_traceparent (H := w3c_format) "00-abc-def-01"
  /\ GetSpanFromHeader (H := w3c_format) bad = inl HeaderParent.
Proof.
  intros trace_id span_id baggage bad.
  destruct (header_codec_round_trip (H := w3c_format)) as (Hrt & _ & Hbad).
  assert (Hnot : ~ well_formed_traceparent (H := w3c_format) "00-abc-def-01").
  { intros Hwf. destruct (well_formed_parses (H := w3c_format) _ Hwf) as (t & s & Hp).
    vm_compute in Hp. discriminate Hp. }
  split; [reflexivity|]. split; [reflexivity|]. split; [vm_compute; reflexivity|].
  split; [exact (Hrt trace_id span_id baggage eq_refl eq_refl eq_refl eq_refl eq_refl)|].
  split; [exact Hnot|].
  apply (Hbad bad "00-abc-def-01"); [reflexivity | exact Hnot].
Defined.

(** [TestMultiExporter_ExportFiles], "should continue if one exporter
    fails", and [TestMultiExporter_AddExporter]. *)
Example MultiExporter_ExportFiles_continues :
  let h : gmap nat mockExporter :=
    <[1%nat := new_mock None (Some (errorString "exp1 error"))]>
      (<[2%nat := new_mock None None]> ∅) in
  let m := NewMultiExporter [Some (mock 1); Some (mock 2)] in
  let files := [Some (file_with_key "test")] in
  let r := MultiExporter_ExportFiles m Background files {| world := h; calls := [] |} in
  r.1 = Returned (Some (errorString "exp1 error"))
  /\ exportFilesCalled <$> world r.2 !! 1%nat = Some true
  /\ exportFilesCalled <$> world r.2 !! 2%nat = Some true
  /\ exportedFiles <$> world r.2 !! 2%nat = Some files.
Proof. vm_compute. auto. Qed.

Example AddExporter_counts :
  let m : MultiExporter (gmap nat mockExporter) := NewMultiExporter [] in
  ExporterCount m = 0
  /\ ExporterCount (AddExporter m (Some (mock 1))) = 1
  /\ ExporterCount (AddExporter m None) = 0
  /\ ExporterCount (NewMultiExporter [Some (mock 1); None; Some (mock 2); None]) = 2.
Proof. vm_compute. auto. Qed.

(** The rendering of a span: string tags in sorted order, the other
    maps in the order they are ranged over, cells escaped. *)
Example spanToMarkdown_sample :
  spanToMarkdown (H := sample_platform)
    {| StartedATMicros := 17; LogID := EmptyString; SpanID := "span1234567890ab";
       ParentID := "0"; TraceID := "trace123456789012345678901234";
       DurationMicros := 1000000; ServiceName := "test_service";
       WorkspaceID := "ws123"; SpanName := "test_span"; SpanType := "test_type";
       StatusCode := 0; Input := "test input"; Output := "test output";
       ObjectStorage := EmptyString;
       SystemTagsString := []; SystemTagsLong := []; SystemTagsDouble := [];
       TagsString := [("key2", "a|b"); ("key1", "value1")];
       TagsLong := [("count", 42)];
       TagsDouble := [("score", float64_div (float64_of_int 95) (float64_of_int 100))];
       TagsBool := [("enabled", true)] |}
  = fold_right (fun line rest => line +:+ LF +:+ rest) EmptyString
      ["# Trace: trace123456789012345678901234"; EmptyString;
       "## Span: test_span"; EmptyString;
       "- **Type:** test_type";
       "- **Span ID:** span1234567890ab";
       "- **Parent ID:** 0";
       "- **Start Time:** 17";
       "- **Duration:** 1.000s";
       "- **Status:** OK (0)";
       "- **Service:** test_service";
       "- **Workspace ID:** ws123"; EmptyString;
       "### Input"; EmptyString; "```"; "test input"; "```"; EmptyString;
       "### Output"; EmptyString; "```"; "test output"; "```"; EmptyString;
       "### Tags"; EmptyString;
       "| Key | Value |";
       "|-----|-------|";
       "| key1 | value1 |";
       "| key2 | a\|b |";
       "| count | 42 |";
       "| score | 0.9500 |";
       "| enabled | true |"; EmptyString;
       "---"; EmptyString].
Proof. vm_compute. reflexivity. Qed.

(** The three ways [ExportSpans] fails, on a batch of a nil and two
    spans: at [MkdirAll] (nothing else is tried), at [OpenFile] (nothing
    is written, nothing is closed), at the second write (the file is
    closed all the same, its failing too goes unreported). *)
Example FileExporter_ExportSpans_failures :
  let e := NewFileExporter "out/traces.md" in
  let spans := [None; Some (span_with_id "a"); Some (span_with_id "b")] in
  let run faults :=
    FileExporter_ExportSpans (H := sample_platform) e Background spans
      (faulty_OS faults) in
  let a := spanToMarkdown (H := sample_platform) (span_with_id "a") in
  let b := spanToMarkdown (H := sample_platform) (span_with_id "b") in
  (run [os.Fail 13]).1 = Some (PathError "mkdir" "out" 13)
  /\ calls_made (run [os.Fail 13]).2 = [(Some (OpMkdirAll "out" 493), true)]
  /\ (run [os.Proceed; os.Fail 13]).1 = Some (PathError "open" "out/traces.md" 13)
  /\ calls_made (run [os.Proceed; os.Fail 13]).2
     = [(Some (OpMkdirAll "out" 493), false);
        (Some (OpOpenFile "out/traces.md" 1089 420), true)]
  /\ (run [os.Proceed; os.Proceed; os.Proceed; os.Fail 28; os.Fail 5]).1
     = Some (PathError "write" "out/traces.md" 28)
  /\ calls_made (run [os.Proceed; os.Proceed; os.Proceed; os.Fail 28; os.Fail 5]).2
     = [(Some (OpMkdirAll "out" 493), false);
        (Some (OpOpenFile "out/traces.md" 1089 420), false);
        (Some (OpWriteString a), false);
        (Some (OpWriteString b), true);
        (None, true)]
  /\ os.ReadFile "out/traces.md"
       (run [os.Proceed; os.Proceed; os.Proceed; os.Fail 28; os.Fail 5]).2 = Some a.
Proof. vm_compute. repeat split; reflexivity. Qed.

(* ================================================================== *)
(** * Further properties: MultiExporter *)
(* ================================================================== *)

Section MultiExporterMore.
Context {W : Type}.
Implicit Types (m : MultiExporter W) (s : Run W).

Lemma non_nil_app {A} (l k : list (option A)) :
  non_nil (l ++ k) = non_nil l ++ non_nil k.
Proof. unfold non_nil. apply List.filter_app. Qed.

Lemma AddExporter_exporters m (exporter : option (Exporter W)) :
  exporters (AddExporter m exporter) = exporters m ++ non_nil [exporter].
Proof. destruct exporter; simpl; [reflexivity|]. now rewrite app_nil_r. Qed.

Lemma AddExporters_exporters m (added : list (option (Exporter W))) :
  exporters (AddExporters m added) = exporters m ++ non_nil added.
Proof.
  revert m. induction added as [|x added IH]; intros m.
  - simpl. now rewrite app_nil_r.
  - change (AddExporters m (x :: added)) with (AddExporters (AddExporter m x) added).
    rewrite IH, AddExporter_exporters.
    rewrite <- app_assoc. f_equal. destruct x; reflexivity.
Qed.

(** X1. Adding exporters one by one after construction gives the same
    [MultiExporter] as passing them all to [NewMultiExporter]. *)
Theorem AddExporter_agrees_with_constructor (args added : list (option (Exporter W))) :
  AddExporters (NewMultiExporter args) added = NewMultiExporter (args ++ added).
Proof.
  assert (H : exporters (AddExporters (NewMultiExporter args) added)
              = exporters (NewMultiExporter (args ++ added))).
  { rewrite AddExporters_exporters, !NewMultiExporter_exporters.
    symmetry. apply non_nil_app. }
  destruct (AddExporters _ _), (NewMultiExporter (args ++ added)).
  simpl in H. now subst.
Qed.

Lemma length_non_nil {A} (l : list (option A)) :
  (length (non_nil l) <= length l)%nat
  /\ (length (non_nil l) = length l <-> Forall (fun a => a <> None) l).
Proof.
  induction l as [|[a|] l [IH1 IH2]]; simpl.
  - split; [lia|]. split; auto.
  - split; [lia|]. split.
    + intros Hl. constructor; [discriminate|]. apply IH2. lia.
    + intros Hall. inversion Hall; subst. f_equal. now apply IH2.
  - split; [lia|]. split; [lia|]. intros Hall. inversion Hall; subst. congruence.
Qed.

(** X2. [ExporterCount] lies between zero and the number of arguments and
    reaches that number exactly when no argument is nil; [AddExporter]
    raises it by one for an exporter and leaves it for nil. *)
Theorem ExporterCount_bounds (args : list (option (Exporter W)))
    (exporter : option (Exporter W)) :
  let m := NewMultiExporter args in
  0 <= ExporterCount m <= Z.of_nat (length args)
  /\ (ExporterCount m = Z.of_nat (length args) <-> Forall (fun a => a <> None) args)
  /\ ExporterCount (AddExporter m exporter)
     = ExporterCount m + match exporter with Some _ => 1 | None => 0 end.
Proof.
  intros m. subst m. unfold ExporterCount.
  rewrite AddExporter_exporters, length_app, NewMultiExporter_exporters.
  destruct (length_non_nil args) as [Hle Hiff].
  split; [lia|]. split.
  - rewrite <- Hiff. lia.
  - destruct exporter; simpl; lia.
Qed.

(** The loop of [ExportSpans] up to a nil entry: the children before it
    are called, then the call on nil panics. *)
Lemma range_ExportSpans_nil ctx spans (es : list (Exporter W)) rest acc s :
  range_ExportSpans ctx spans (map Some es ++ None :: rest) acc s
  = (Panicked,
     {| world := (results_in_order
                    (map (fun e => exp_ExportSpans e ctx spans) es) (world s)).2;
        calls := calls s ++ map (fun e => CallExportSpans e ctx spans) es |}).
Proof.
  revert acc s. induction es as [|e es IH]; intros acc s; simpl.
  - unfold bind, call_ExportSpans. rewrite app_nil_r. now destruct s.
  - unfold bind, call_ExportSpans.
    destruct (exp_ExportSpans e ctx spans (world s)) as [r w1] eqn:He.
    rewrite IH. simpl.
    destruct (results_in_order _ w1) as [rs w2]. simpl.
    now rewrite <- app_assoc.
Qed.

Lemma range_ExportFiles_nil ctx files (es : list (Exporter W)) rest acc s :
  range_ExportFiles ctx files (map Some es ++ None :: rest) acc s
  = (Panicked,
     {| world := (results_in_order
                    (map (fun e => exp_ExportFiles e ctx files) es) (world s)).2;
        calls := calls s ++ map (fun e => CallExportFiles e ctx files) es |}).
Proof.
  revert acc s. induction es as [|e es IH]; intros acc s; simpl.
  - unfold bind, call_ExportFiles. rewrite app_nil_r. now destruct s.
  - unfold bind, call_ExportFiles.
    destruct (exp_ExportFiles e ctx files (world s)) as [r w1] eqn:He.
    rewrite IH. simpl.
    destruct (results_in_order _ w1) as [rs w2]. simpl.
    now rewrite <- app_assoc.
Qed.

(** X3. Were a nil to stand in the list (no constructor puts one there),
    an export would call the exporters in front of it and then panic,
    leaving those behind it uncalled and returning no error. *)
Theorem MultiExporter_export_panics_at_nil m (es : list (Exporter W))
    (rest : list (option (Exporter W))) ctx s :
  exporters m = map Some es ++ None :: rest ->
  (forall spans,
      MultiExporter_ExportSpans m ctx spans s
      = (Panicked,
         {| world := (results_in_order
                        (map (fun e => exp_ExportSpans e ctx spans) es) (world s)).2;
            calls := calls s ++ map (fun e => CallExportSpans e ctx spans) es |}))
  /\ (forall files,
      MultiExporter_ExportFiles m ctx files s
      = (Panicked,
         {| world := (results_in_order
                        (map (fun e => exp_ExportFiles e ctx files) es) (world s)).2;
            calls := calls s ++ map (fun e => CallExportFiles e ctx files) es |})).
Proof.
  intros Hm.
  assert (Hlen : (length (exporters m) =? 0)%nat = false).
  { rewrite Hm, length_app. simpl. apply Nat.eqb_neq. lia. }
  split.
  - intros spans. unfold MultiExporter_ExportSpans. rewrite Hlen, Hm.
    apply range_ExportSpans_nil.
  - intros files. unfold MultiExporter_ExportFiles. rewrite Hlen, Hm.
    apply range_ExportFiles_nil.
Qed.

End MultiExporterMore.

Lemma MultiExporter_export_panics_at_nil_witness :
  let m : MultiExporter (gmap nat mockExporter) :=
    {| exporters := [Some (mock 1); None; Some (mock 2)] |} in
  let s := {| world := two_failing_mocks; calls := [] |} in
  let spans := [Some (span_with_id "test")] in
  exporters m = map Some [mock 1] ++ None :: [Some (mock 2)]
  /\ (MultiExporter_ExportSpans m Background spans s).1 = Panicked
  /\ calls (MultiExporter_ExportSpans m Background spans s).2
     = [CallExportSpans (mock 1) Background spans].
Proof.
  intros m s spans. split; [reflexivity|].
  destruct (MultiExporter_export_panics_at_nil m [mock 1] [Some (mock 2)]
              Background s eq_refl) as [Hs _].
  rewrite (Hs spans). split; reflexivity.
Defined.

(* ================================================================== *)
(** * Further facts about the operating system model *)
(* ================================================================== *)

Module os_more.
Import os os_facts.

Lemma next_fault_none (s : OS) : faults s = [] -> next_fault s = (Proceed, s).
Proof. unfold next_fault. now intros ->. Qed.

(** The descriptor table under each call. *)
Lemma MkdirAll_open_files path perm s :
  open_files (MkdirAll path perm s).2 = open_files s
  /\ next_fd (MkdirAll path perm s).2 = next_fd s.
Proof.
  unfold MkdirAll. use_next_fault s f s1.
  destruct f; [destruct (files s1 !! path)|..]; simpl; auto.
Qed.

Lemma OpenFile_open_files name flag perm s :
  match (OpenFile name flag perm s).1 with
  | inl fd =>
      fd = next_fd s
      /\ open_files (OpenFile name flag perm s).2
         = <[fd := {| of_path := name; of_flag := flag; of_offset := 0 |}]>
             (open_files s)
  | inr _ => open_files (OpenFile name flag perm s).2 = open_files s
  end.
Proof.
  unfold OpenFile. use_next_fault s f s1.
  destruct f; simpl; auto.
  destruct (decide (name ∈ dirs s1)); simpl; auto.
  destruct (files s1 !! name); simpl.
  - destruct (has_flag flag O_CREATE && has_flag flag O_EXCL); simpl; auto.
    destruct (has_flag flag O_TRUNC && negb (access_mode flag =? O_RDONLY));
      simpl; rewrite Hfd, Hopen; auto.
  - destruct (has_flag flag O_CREATE); simpl; auto. rewrite Hfd, Hopen; auto.
Qed.

(** A write leaves the descriptor open on the same path with the same
    flags, touches no other descriptor, and no file but its own. *)
Lemma WriteString_frame fd data s entry :
  open_files s !! fd = Some entry ->
  (forall p, p <> of_path entry ->
             files (WriteString fd data s).2 !! p = files s !! p)
  /\ delete fd (open_files (WriteString fd data s).2) = delete fd (open_files s)
  /\ exists entry',
       open_files (WriteString fd data s).2 !! fd = Some entry'
       /\ of_path entry' = of_path entry /\ of_flag entry' = of_flag entry.
Proof.
  intros Hfd. unfold WriteString. use_next_fault s f s1.
  rewrite Hopen, Hfd.
  assert (Hsame : (forall p, p <> of_path entry -> files s1 !! p = files s !! p)
                  /\ delete fd (open_files s1) = delete fd (open_files s)
                  /\ exists entry', open_files s1 !! fd = Some entry'
                       /\ of_path entry' = of_path entry
                       /\ of_flag entry' = of_flag entry).
  { rewrite Hfiles, Hopen. split; [auto|]. split; [auto|]. now exists entry. }
  destruct (access_mode (of_flag entry) =? O_RDONLY); simpl; [exact Hsame|].
  destruct f as [|errno|n errno]; simpl; [|exact Hsame|].
  - rewrite ?Hfiles, ?Hopen. split; [|split].
    + intros p Hp. rewrite lookup_insert_ne; congruence.
    + apply delete_insert_eq.
    + eexists. split; [apply lookup_insert_eq|]. split; reflexivity.
  - rewrite ?Hfiles, ?Hopen. split; [|split].
    + intros p Hp. rewrite lookup_insert_ne; congruence.
    + apply delete_insert_eq.
    + eexists. split; [apply lookup_insert_eq|]. split; reflexivity.
Qed.

Lemma Close_open_files fd s :
  open_files (Close fd s).2 = delete fd (open_files s).
Proof.
  unfold Close. use_next_fault s f s1.
  destruct (open_files s1 !! fd) as [entry|] eqn:Hlook; simpl.
  - now rewrite Hopen.
  - rewrite <- Hopen. symmetry. now apply delete_id.
Qed.

(** Directories and faults under the calls other than [MkdirAll]. *)
Lemma OpenFile_dirs name flag perm s :
  dirs (OpenFile name flag perm s).2 = dirs s.
Proof.
  unfold OpenFile. use_next_fault s f s1.
  destruct f; simpl; auto.
  destruct (decide (name ∈ dirs s1)); simpl; auto.
  destruct (files s1 !! name); simpl.
  - destruct (has_flag flag O_CREATE && has_flag flag O_EXCL); simpl; auto.
    destruct (has_flag flag O_TRUNC && negb (access_mode flag =? O_RDONLY));
      simpl; auto.
  - destruct (has_flag flag O_CREATE); simpl; auto.
Qed.

Lemma WriteString_dirs fd data s : dirs (WriteString fd data s).2 = dirs s.
Proof.
  unfold WriteString. use_next_fault s f s1.
  destruct (open_files s1 !! fd) as [entry|]; simpl; auto.
  destruct (access_mode (of_flag entry) =? O_RDONLY); simpl; auto.
  destruct f; simpl; auto.
Qed.

Lemma Close_dirs fd s : dirs (Close fd s).2 = dirs s.
Proof.
  unfold Close. use_next_fault s f s1.
  destruct (open_files s1 !! fd) as [entry|]; simpl; auto.
Qed.

(** The calls when the environment lets them proceed. *)
Lemma MkdirAll_proceeds path perm s :
  faults s = [] -> files s !! path = None ->
  (MkdirAll path perm s).1 = None
  /\ faults (MkdirAll path perm s).2 = []
  /\ dirs (MkdirAll path perm s).2 = {[path]} ∪ dirs s.
Proof.
  intros Hf Hp. unfold MkdirAll. rewrite (next_fault_none s Hf), Hp. simpl. auto.
Qed.

Lemma OpenFile_proceeds name perm s :
  faults s = [] -> name ∉ dirs s ->
  exists fd,
    (OpenFile name 1089 perm s).1 = inl fd
    /\ faults (OpenFile name 1089 perm s).2 = []
    /\ files (OpenFile name 1089 perm s).2 !! name
       = Some (default EmptyString (files s !! name)).
Proof.
  intros Hf Hd. unfold OpenFile. rewrite (next_fault_none s Hf).
  destruct (decide (name ∈ dirs s)); [contradiction|].
  exists (next_fd s).
  destruct (files s !! name) as [content|] eqn:Hname; simpl.
  - change (has_flag 1089 O_CREATE && has_flag 1089 O_EXCL) with false.
    change (has_flag 1089 O_TRUNC && negb (access_mode 1089 =? O_RDONLY)) with false.
    simpl. auto.
  - change (has_flag 1089 O_CREATE) with true. simpl.
    split; [reflexivity|]. split; [exact Hf|]. apply lookup_insert_eq.
Qed.

Lemma WriteString_proceeds fd data s entry old :
  faults s = [] ->
  open_files s !! fd = Some entry -> of_flag entry = 1089 ->
  files s !! of_path entry = Some old ->
  (WriteString fd data s).1.2 = None
  /\ faults (WriteString fd data s).2 = []
  /\ files (WriteString fd data s).2 !! of_path entry = Some (old +:+ data).
Proof.
  intros Hf Hfd Hflag Hold. unfold WriteString.
  rewrite (next_fault_none s Hf), Hfd, Hflag.
  change (access_mode 1089 =? O_RDONLY) with false.
  change (has_flag 1089 O_APPEND) with true. simpl.
  rewrite Hold. simpl. split; [reflexivity|]. split; [exact Hf|].
  apply lookup_insert_eq.
Qed.

Lemma Close_proceeds fd s : faults s = [] -> faults (Close fd s).2 = [].
Proof.
  intros Hf. unfold Close. rewrite (next_fault_none s Hf).
  destruct (open_files s !! fd); simpl; exact Hf.
Qed.

End os_more.

(* ================================================================== *)
(** * Further properties: FileExporter and the file system *)
(* ================================================================== *)

Section FileExporterMore.
Context `{Platform}.
Import os os_facts os_more.

(** The loop of writes: its descriptor stays open, no other descriptor
    and no other file changes, the directories stay as they are. *)
Lemma write_spans_frame f spans : forall s entry,
  open_files s !! f = Some entry ->
  (forall p, p <> of_path entry ->
             files (write_spans f spans s).2 !! p = files s !! p)
  /\ delete f (open_files (write_spans f spans s).2) = delete f (open_files s)
  /\ dirs (write_spans f spans s).2 = dirs s.
Proof.
  induction spans as [|[span|] rest IH]; intros s entry Hfd; simpl.
  - auto.
  - destruct (WriteString_frame f (spanToMarkdown span) s entry Hfd)
      as (Hframe & Hdel & entry' & Hfd' & Hp' & _).
    pose proof (WriteString_dirs f (spanToMarkdown span) s) as Hd.
    destruct (WriteString f (spanToMarkdown span) s) as [[n err] s1].
    simpl in *. destruct err as [err|]; simpl; [auto|].
    destruct (IH s1 entry' Hfd') as (IH1 & IH2 & IH3).
    rewrite Hp' in IH1. split; [|split]; try congruence.
    intros p Hp. rewrite IH1; auto.
  - eapply IH; eauto.
Qed.

(** The loop of writes when the environment lets every call proceed. *)
Lemma write_spans_proceeds f spans : forall s entry old,
  faults s = [] ->
  open_files s !! f = Some entry -> of_flag entry = 1089 ->
  files s !! of_path entry = Some old ->
  (write_spans f spans s).1 = None
  /\ faults (write_spans f spans s).2 = []
  /\ files (write_spans f spans s).2 !! of_path entry
     = Some (old +:+ markdown_of spans).
Proof.
  induction spans as [|[span|] rest IH]; intros s entry old Hf Hfd Hflag Hold.
  - simpl. unfold markdown_of. simpl. now rewrite string_app_nil_r.
  - simpl write_spans. unfold markdown_of. rewrite rendered_cons_Some.
    simpl fold_right. fold (markdown_of rest).
    destruct (WriteString_proceeds f (spanToMarkdown span) s entry old
                Hf Hfd Hflag Hold) as (Herr & Hf1 & Hfile).
    destruct (WriteString_frame f (spanToMarkdown span) s entry Hfd)
      as (_ & _ & entry' & Hfd' & Hp' & Hflag').
    destruct (WriteString f (spanToMarkdown span) s) as [[n err] s1].
    simpl in *. subst err.
    rewrite <- Hp' in Hfile. rewrite Hflag in Hflag'.
    destruct (IH s1 entry' _ Hf1 Hfd' Hflag' Hfile) as (IH1 & IH2 & IH3).
    rewrite Hp' in IH3. rewrite string_app_assoc in IH3. auto.
  - simpl write_spans. apply IH; assumption.
Qed.

(** The call on a non-empty batch, phase by phase. *)
Lemma FileExporter_ExportSpans_phases e ctx span rest s :
  let spans := span :: rest in
  let dir := filepath_Dir (filePath e) in
  let made := if decide (dir = EmptyString \/ dir = ".") then (None, s)
              else MkdirAll dir 493 s in
  FileExporter_ExportSpans e ctx spans s
  = match made.1 with
    | Some _ => made
    | None =>
        match (OpenFile (filePath e) 1089 420 made.2).1 with
        | inr err => (Some err, (OpenFile (filePath e) 1089 420 made.2).2)
        | inl f =>
            let opened := (OpenFile (filePath e) 1089 420 made.2).2 in
            ((write_spans f spans opened).1,
             (Close f (write_spans f spans opened).2).2)
        end
    end.
Proof.
  intros spans dir made. subst made. unfold FileExporter_ExportSpans.
  change (length spans =? 0)%nat with false. cbv iota. fold dir.
  rewrite mkdir_needed_decide.
  change (Z.lor (Z.lor O_APPEND O_CREATE) O_WRONLY) with 1089.
  clearbody spans.
  destruct (decide (dir = EmptyString \/ dir = ".")); cbn [fst snd].
  - destruct (OpenFile (filePath e) 1089 420 s) as [[f|err] s1];
      cbn [fst snd]; auto.
    destruct (write_spans f spans s1) as [err s2]; cbn [fst snd].
    now destruct (Close f s2).
  - destruct (MkdirAll dir 493 s) as [[err|] s0]; cbn [fst snd]; auto.
    destruct (OpenFile (filePath e) 1089 420 s0) as [[f|err] s1];
      cbn [fst snd]; auto.
    destruct (write_spans f spans s1) as [err s2]; cbn [fst snd].
    now destruct (Close f s2).
Qed.

(** The files beside the exporter's own, across a call on a non-empty
    batch. *)
Lemma FileExporter_ExportSpans_other_files e ctx span rest s p :
  p <> filePath e ->
  files (FileExporter_ExportSpans e ctx (span :: rest) s).2 !! p = files s !! p.
Proof.
  intros Hp. rewrite FileExporter_ExportSpans_phases.
  set (dir := filepath_Dir (filePath e)).
  set (made := if decide (dir = EmptyString \/ dir = ".") then (None, s)
               else MkdirAll dir 493 s).
  assert (Hmade : files made.2 = files s).
  { subst made. destruct (decide _); [reflexivity|apply MkdirAll_files]. }
  destruct made.1; [now rewrite Hmade|].
  destruct (OpenFile_no_trunc (filePath e) 1089 420 made.2 eq_refl)
    as (_ & Hother & Hentry).
  destruct (OpenFile (filePath e) 1089 420 made.2) as [[f|err] s1];
    simpl in *; [|rewrite Hother, Hmade; auto].
  rewrite Close_files.
  destruct (write_spans_frame f (span :: rest) s1 _ (Hentry f eq_refl))
    as (Hframe & _). simpl in Hframe.
  rewrite Hframe, Hother, Hmade; auto.
Qed.

(** X5. Whatever fails, [ExportSpans] leaves no descriptor open: the
    descriptor table is afterwards what it was. *)
Theorem FileExporter_ExportSpans_closes_its_file e ctx spans s :
  open_files s !! next_fd s = None ->
  open_files (FileExporter_ExportSpans e ctx spans s).2 = open_files s.
Proof.
  intros Hfresh. destruct spans as [|span rest]; [reflexivity|].
  rewrite FileExporter_ExportSpans_phases.
  set (dir := filepath_Dir (filePath e)).
  set (made := if decide (dir = EmptyString \/ dir = ".") then (None, s)
               else MkdirAll dir 493 s).
  assert (Hmade : open_files made.2 = open_files s /\ next_fd made.2 = next_fd s).
  { subst made. destruct (decide _); [auto|apply MkdirAll_open_files]. }
  destruct Hmade as [Hm1 Hm2].
  destruct made.1; [exact Hm1|].
  pose proof (OpenFile_open_files (filePath e) 1089 420 made.2) as Hop.
  destruct (OpenFile (filePath e) 1089 420 made.2) as [[f|err] s1];
    cbn [fst snd] in *; [|congruence].
  destruct Hop as [-> Hop].
  rewrite Close_open_files.
  destruct (write_spans_frame (next_fd made.2) (span :: rest) s1
              {| of_path := filePath e; of_flag := 1089; of_offset := 0 |})
    as (_ & Hdel & _).
  { rewrite Hop. apply lookup_insert_eq. }
  rewrite Hdel, Hop, delete_insert_eq, Hm1. apply delete_id.
  rewrite Hm2. exact Hfresh.
Qed.

(** One call on a non-empty batch when nothing stands in its way. *)
Lemma FileExporter_ExportSpans_healthy_run e ctx span rest s :
  healthy e s ->
  let spans := span :: rest in
  let res := FileExporter_ExportSpans e ctx spans s in
  let dir := filepath_Dir (filePath e) in
  res.1 = None
  /\ ReadFile (filePath e) res.2
     = Some (default EmptyString (ReadFile (filePath e) s) +:+ markdown_of spans)
  /\ (dir = EmptyString \/ dir = "." \/ dir ∈ dirs res.2)
  /\ healthy e res.2.
Proof.
  intros (Hf & Hnd & Hne & Hdirfile) spans res dir. subst res spans.
  unfold ReadFile. rewrite FileExporter_ExportSpans_phases.
  set (spans := span :: rest). fold dir.
  set (made := if decide (dir = EmptyString \/ dir = ".") then (None, s)
               else MkdirAll dir 493 s).
  assert (Hmade : made.1 = None /\ faults made.2 = [] /\ files made.2 = files s
                  /\ (filePath e ∉ dirs made.2)
                  /\ (dir = EmptyString \/ dir = "." \/ dir ∈ dirs made.2)).
  { subst made. destruct (decide _) as [Hd|Hd]; simpl.
    - repeat split; auto. tauto.
    - destruct (MkdirAll_proceeds dir 493 s Hf Hdirfile) as (E1 & E2 & E3).
      split; [exact E1|]. split; [exact E2|]. split; [apply MkdirAll_files|].
      rewrite E3. split.
      + intros [Hin%elem_of_singleton|Hin]%elem_of_union; [|contradiction].
        apply Hne. now symmetry.
      + right. right. apply elem_of_union. left. now apply elem_of_singleton. }
  destruct Hmade as (-> & Hf0 & Hfiles0 & Hnd0 & Hdir0).
  destruct (OpenFile_proceeds (filePath e) 420 made.2 Hf0 Hnd0)
    as (fd & Hfd & Hf1 & Hfile1).
  pose proof (OpenFile_open_files (filePath e) 1089 420 made.2) as Hop.
  pose proof (OpenFile_dirs (filePath e) 1089 420 made.2) as Hd1.
  destruct (OpenFile_no_trunc (filePath e) 1089 420 made.2 eq_refl)
    as (_ & Hother1 & _).
  destruct (OpenFile (filePath e) 1089 420 made.2) as [r1 s1].
  cbn [fst snd] in *. subst r1. destruct Hop as [_ Hop].
  assert (Hentry : open_files s1 !! fd
                   = Some {| of_path := filePath e; of_flag := 1089; of_offset := 0 |}).
  { rewrite Hop. apply lookup_insert_eq. }
  destruct (write_spans_proceeds fd spans s1 _ _ Hf1 Hentry eq_refl Hfile1)
    as (Hr & Hf2 & Hfile2).
  destruct (write_spans_frame fd spans s1 _ Hentry) as (Hframe2 & _ & Hd2).
  cbn [of_path] in Hfile2, Hframe2.
  cbn [fst snd]. rewrite Hfiles0 in Hfile2.
  split; [exact Hr|]. rewrite Close_files. split; [exact Hfile2|].
  rewrite Close_dirs, Hd2, Hd1. split; [exact Hdir0|].
  unfold healthy. rewrite Close_files, Close_dirs, Hd2, Hd1.
  split; [now apply Close_proceeds|]. split; [exact Hnd0|]. split; [exact Hne|].
  rewrite Hframe2, Hother1, Hfiles0; auto.
Qed.

Lemma markdown_of_app (a b : list (option UploadSpan)) :
  markdown_of (a ++ b) = markdown_of a +:+ markdown_of b.
Proof.
  unfold markdown_of, rendered. rewrite omap_app.
  induction (omap _ a) as [|x l IH]; simpl; [reflexivity|].
  rewrite IH. symmetry. apply string_app_assoc.
Qed.

Lemma FileExporter_ExportSpans_any_batch e ctx spans s :
  healthy e s ->
  let res := FileExporter_ExportSpans e ctx spans s in
  res.1 = None /\ healthy e res.2
  /\ default EmptyString (ReadFile (filePath e) res.2)
     = default EmptyString (ReadFile (filePath e) s) +:+ markdown_of spans
  /\ (spans <> [] -> is_Some (ReadFile (filePath e) res.2)).
Proof.
  intros Hh res. subst res. destruct spans as [|span rest].
  - simpl. unfold markdown_of. simpl. rewrite string_app_nil_r.
    split; [reflexivity|]. split; [exact Hh|]. split; [reflexivity|].
    intros Hn. now destruct Hn.
  - destruct (FileExporter_ExportSpans_healthy_run e ctx span rest s Hh)
      as (H1 & H2 & _ & H4).
    rewrite H2. simpl.
    split; [exact H1|]. split; [exact H4|]. split; [reflexivity|]. eauto.
Qed.

(** X6. On a healthy file system a non-empty batch is written in full:
    the call returns nil, the file holds what it held (nothing, when it
    was missing) followed by the markdown of the batch, its directory
    exists unless it is the current one, and the system is healthy
    again. *)
Theorem FileExporter_ExportSpans_succeeds e ctx span rest s :
  healthy e s ->
  let spans := span :: rest in
  let res := FileExporter_ExportSpans e ctx spans s in
  let dir := filepath_Dir (filePath e) in
  res.1 = None
  /\ ReadFile (filePath e) res.2
     = Some (default EmptyString (ReadFile (filePath e) s) +:+ markdown_of spans)
  /\ (dir = EmptyString \/ dir = "." \/ dir ∈ dirs res.2)
  /\ healthy e res.2.
Proof. apply FileExporter_ExportSpans_healthy_run. Qed.

(** X7. On a healthy file system, for batches of order-free spans, two
    calls in a row leave the files as one call with the two batches
    joined does, and all three return nil. *)
Theorem FileExporter_ExportSpans_twice_is_once e ctx spans1 spans2 s :
  healthy e s ->
  all_order_free spans1 -> all_order_free spans2 ->
  let first := FileExporter_ExportSpans e ctx spans1 s in
  let second := FileExporter_ExportSpans e ctx spans2 first.2 in
  let joined := FileExporter_ExportSpans e ctx (spans1 ++ spans2) s in
  first.1 = None /\ second.1 = None /\ joined.1 = None
  /\ forall p, ReadFile p second.2 = ReadFile p joined.2.
Proof.
  intros Hh _ _ first second joined.
  destruct (FileExporter_ExportSpans_any_batch e ctx spans1 s Hh)
    as (A1 & A2 & A3 & A4). fold first in A1, A2, A3, A4.
  destruct (FileExporter_ExportSpans_any_batch e ctx spans2 first.2 A2)
    as (B1 & _ & B3 & B4). fold second in B1, B3, B4.
  destruct (FileExporter_ExportSpans_any_batch e ctx (spans1 ++ spans2) s Hh)
    as (C1 & _ & C3 & C4). fold joined in C1, C3, C4.
  split; [exact A1|]. split; [exact B1|]. split; [exact C1|].
  intros p. destruct (decide (p = filePath e)) as [->|Hp].
  - rewrite A3, string_app_assoc, <- markdown_of_app, <- C3 in B3.
    destruct spans1 as [|x1 l1].
    + destruct spans2 as [|x2 l2]; [reflexivity|].
      destruct B4 as [c Hc]; [discriminate|].
      destruct C4 as [d Hd]; [discriminate|].
      rewrite Hc, Hd in *. simpl in B3. congruence.
    + destruct C4 as [d Hd]; [discriminate|].
      destruct A4 as [a Ha]; [discriminate|].
      assert (Hs : is_Some (ReadFile (filePath e) second.2)).
      { destruct spans2 as [|x2 l2]; [|apply B4; discriminate].
        subst second. simpl. rewrite Ha. eauto. }
      destruct Hs as [c Hc]. rewrite Hc, Hd in *. simpl in B3. congruence.
  - assert (Hother : forall spans s0,
              ReadFile p (FileExporter_ExportSpans e ctx spans s0).2 = ReadFile p s0).
    { intros [|x l] s0; [reflexivity|].
      now apply FileExporter_ExportSpans_other_files. }
    subst second joined first. now rewrite !Hother.
Qed.

Lemma write_spans_non_nil f spans s :
  write_spans f spans s = write_spans f (non_nil spans) s.
Proof.
  revert s. induction spans as [|[span|] rest IH]; intros s; simpl; auto.
  destruct (WriteString f (spanToMarkdown span) s) as [[n [err|]] s1]; auto.
Qed.

(** X8. Nil entries of a batch are skipped: a batch of order-free spans
    with at least one span in it is exported exactly as the batch
    without its nil entries. *)
Theorem FileExporter_ExportSpans_skips_nil e ctx spans s :
  non_nil spans <> [] ->
  all_order_free spans ->
  FileExporter_ExportSpans e ctx spans s
  = FileExporter_ExportSpans e ctx (non_nil spans) s.
Proof.
  intros Hne _. pose proof (write_spans_non_nil) as Hw.
  destruct spans as [|span rest]; [reflexivity|].
  destruct (non_nil (span :: rest)) as [|y l] eqn:Hnn; [congruence|].
  rewrite !FileExporter_ExportSpans_phases. cbv zeta.
  destruct (_ : option error * OS).1; [reflexivity|].
  destruct (OpenFile _ _ _ _).1; [|reflexivity].
  now rewrite (Hw f (span :: rest)), Hnn.
Qed.

Lemma markdown_of_all_nil (l : list (option UploadSpan)) :
  Forall (fun x => x = None) l -> markdown_of l = EmptyString.
Proof.
  unfold markdown_of, rendered.
  induction 1 as [|x l -> _ IH]; [reflexivity|exact IH].
Qed.

(** X9. A batch of nil entries only is not an empty batch: on a healthy
    file system the call returns nil and the trace file exists
    afterwards, with the contents it had (none, when it was missing). *)
Theorem FileExporter_ExportSpans_all_nil e ctx span rest s :
  healthy e s ->
  Forall (fun x => x = None) (span :: rest) ->
  let res := FileExporter_ExportSpans e ctx (span :: rest) s in
  res.1 = None
  /\ ReadFile (filePath e) res.2
     = Some (default EmptyString (ReadFile (filePath e) s))
  /\ FileExporter_ExportSpans e ctx [] s = (None, s).
Proof.
  intros Hh Hnil res. subst res.
  destruct (FileExporter_ExportSpans_healthy_run e ctx span rest s Hh)
    as (H1 & H2 & _).
  split; [exact H1|]. split; [|reflexivity].
  rewrite H2. f_equal.
  rewrite (markdown_of_all_nil _ Hnil). apply string_app_nil_r.
Qed.

(** X10. The use the example makes of the two exporters: behind any first
    exporter a [FileExporter] is run on the batch whether the first one
    failed or not; the error returned is the first exporter's if it has
    one, and the file exporter's otherwise. *)
Theorem MultiExporter_tees_to_file (first : Exporter OS) e ctx spans st :
  let m := NewMultiExporter [Some first; Some (FileExporter_Exporter e)] in
  let a := exp_ExportSpans first ctx spans (world st) in
  let b := FileExporter_ExportSpans e ctx spans a.2 in
  MultiExporter_ExportSpans m ctx spans st
  = (Returned (match a.1 with Some _ => a.1 | None => b.1 end),
     {| world := b.2;
        calls := calls st ++ [CallExportSpans first ctx spans;
                              CallExportSpans (FileExporter_Exporter e) ctx spans] |}).
Proof.
  intros m a b.
  destruct (MultiExporter_export_children m [first; FileExporter_Exporter e] eq_refl)
    as [Hs _].
  rewrite Hs. subst a b. simpl.
  destruct (exp_ExportSpans first ctx spans (world st)) as [r1 w1]. simpl.
  destruct (FileExporter_ExportSpans e ctx spans w1) as [r2 w2]. simpl.
  destruct r1, r2; reflexivity.
Qed.

Lemma file_exporters_ExportFiles_run (fes : list FileExporter) ctx files w :
  results_in_order
    (map (fun e => exp_ExportFiles e ctx files) (map FileExporter_Exporter fes)) w
  = (map (fun _ => None) fes, w).
Proof.
  revert w. induction fes as [|fe fes IH]; intros w; simpl; [reflexivity|].
  now rewrite IH.
Qed.

(** X11. Uploaded files reach no local file through a [MultiExporter]
    either: on file exporters only, [ExportFiles] calls each of them,
    returns nil and leaves the file system as it is. *)
Theorem MultiExporter_of_file_exporters_ExportFiles
    (fes : list FileExporter) ctx files st :
  let es := map FileExporter_Exporter fes in
  MultiExporter_ExportFiles (NewMultiExporter (map Some es)) ctx files st
  = (Returned None,
     {| world := world st;
        calls := calls st ++ map (fun e => CallExportFiles e ctx files) es |}).
Proof.
  intros es.
  destruct (MultiExporter_export_children (NewMultiExporter (map Some es)) es)
    as [_ Hf].
  { rewrite NewMultiExporter_exporters. unfold non_nil.
    clear. induction es as [|x l IH]; simpl; congruence. }
  rewrite Hf. subst es. rewrite file_exporters_ExportFiles_run. simpl.
  f_equal. f_equal. clear. induction fes as [|x l IH]; simpl; auto.
Qed.

End FileExporterMore.

(* ================================================================== *)
(** * Further properties: the rendering of a span *)
(* ================================================================== *)

Section RenderingMore.
Import os_facts.

(** [ReplaceAll] and the bytes of its result. *)
Lemma ReplaceAll_removes (s : string) (old : ascii) (new : string) :
  contains old new = false -> contains old (ReplaceAll s old new) = false.
Proof.
  intros Hnew. induction s as [|c s IH]; simpl; [reflexivity|].
  destruct (Ascii.eqb c old) eqn:Hc.
  - now rewrite contains_app, Hnew, IH.
  - simpl. now rewrite Hc, IH.
Qed.

Lemma ReplaceAll_keeps_absent (s : string) (c old : ascii) (new : string) :
  contains c s = false -> contains c new = false ->
  contains c (ReplaceAll s old new) = false.
Proof.
  intros Hs Hnew. induction s as [|x s IH]; simpl; [reflexivity|].
  simpl in Hs. apply orb_false_iff in Hs as [Hx Hs].
  destruct (Ascii.eqb x old).
  - now rewrite contains_app, Hnew, IH.
  - simpl. now rewrite Hx, IH.
Qed.

Lemma ReplaceAll_absent (s : string) (old : ascii) (new : string) :
  contains old s = false -> ReplaceAll s old new = s.
Proof.
  induction s as [|c s IH]; simpl; [reflexivity|].
  intros [Hc Hs]%orb_false_iff. now rewrite Hc, IH.
Qed.

(** X12. An escaped cell holds no line feed and no carriage return: it
    stays on the line of its row. *)
Theorem escapeMarkdown_single_line (s : string) :
  contains "010" (escapeMarkdown s) = false
  /\ contains CR (escapeMarkdown s) = false.
Proof.
  unfold escapeMarkdown. split.
  - apply ReplaceAll_keeps_absent; [|reflexivity].
    now apply ReplaceAll_removes.
  - now apply ReplaceAll_removes.
Qed.

Lemma pipes_escaped_weaken (s : string) :
  pipes_escaped false s = true -> pipes_escaped true s = true.
Proof.
  destruct s as [|c s]; simpl; [reflexivity|].
  destruct (Ascii.eqb c "|"); simpl; [discriminate|auto].
Qed.

Lemma pipes_escaped_pipe (s : string) (prev : bool) :
  pipes_escaped prev (ReplaceAll s "|" "\|") = true.
Proof.
  revert prev. induction s as [|c s IH]; intros prev; simpl; [reflexivity|].
  destruct (Ascii.eqb c "|") eqn:Hc.
  - rewrite !string_app_cons, string_app_nil_l. simpl. apply IH.
  - simpl. rewrite Hc. simpl. apply IH.
Qed.

Lemma pipes_escaped_line_feed (s : string) (prev : bool) :
  pipes_escaped prev s = true ->
  pipes_escaped prev (ReplaceAll s "010" " ") = true.
Proof.
  revert prev. induction s as [|c s IH]; intros prev; simpl; [reflexivity|].
  intros [Hc Hs]%andb_true_iff.
  destruct (Ascii.eqb_spec c "010") as [->|Hne].
  - rewrite string_app_cons, string_app_nil_l. simpl. now apply IH.
  - simpl. rewrite Hc. simpl. now apply IH.
Qed.

Lemma pipes_escaped_carriage_return (s : string) (prev : bool) :
  pipes_escaped prev s = true ->
  pipes_escaped prev (ReplaceAll s CR EmptyString) = true.
Proof.
  revert prev. induction s as [|c s IH]; intros prev; simpl; [reflexivity|].
  intros [Hc Hs]%andb_true_iff.
  destruct (Ascii.eqb_spec c CR) as [->|Hne].
  - rewrite string_app_nil_l. simpl in Hs.
    destruct prev; [apply pipes_escaped_weaken|]; now apply IH.
  - simpl. rewrite Hc. simpl. now apply IH.
Qed.

(** X13. In an escaped cell every pipe comes right after a backslash, so
    none is read as a column border; a cell with no pipe, line feed or
    carriage return is left as it is. *)
Theorem escapeMarkdown_escapes_pipes (s : string) :
  pipes_escaped false (escapeMarkdown s) = true
  /\ (contains "|" s = false -> contains "010" s = false ->
      contains CR s = false -> escapeMarkdown s = s).
Proof.
  unfold escapeMarkdown. split.
  - apply pipes_escaped_carriage_return, pipes_escaped_line_feed,
      pipes_escaped_pipe.
  - intros H1 H2 H3.
    rewrite (ReplaceAll_absent s "|") by exact H1.
    rewrite (ReplaceAll_absent s "010") by exact H2.
    now apply ReplaceAll_absent.
Qed.

Lemma length_app (a b : string) :
  String.length (a +:+ b) = (String.length a + String.length b)%nat.
Proof.
  induction a as [|c a IH]; [reflexivity|].
  rewrite string_app_cons. simpl. now rewrite IH.
Qed.

Lemma length_substring (n : nat) (s : string) :
  (n <= String.length s)%nat -> String.length (String.substring 0 n s) = n.
Proof.
  revert n. induction s as [|c s IH]; intros [|n] Hn; simpl in *; try lia.
  rewrite IH; lia.
Qed.

Lemma take_app_take (n : nat) (s rest : string) :
  (n <= String.length s)%nat ->
  os.take n (os.take n s +:+ rest) = os.take n s.
Proof.
  assert (Hzero : forall x, String.substring 0 0 x = EmptyString)
    by (intros [|? ?]; reflexivity).
  unfold os.take. revert n. induction s as [|c s IH]; intros [|n] Hn;
    rewrite ?Hzero; simpl in Hn; try lia; try reflexivity.
  simpl String.substring at 2 3. rewrite string_app_cons. simpl.
  rewrite IH; [reflexivity|lia].
Qed.

(** X14. For a limit that is not negative, [truncateString] keeps the first
    [maxLen] bytes of [s] as they are, returns [s] itself when it has no
    more than that, and never returns more than [maxLen] bytes and the
    15 of the mark. *)
Theorem truncateString_bounds (s : string) (maxLen : Z) :
  0 <= maxLen ->
  os.take (Z.to_nat maxLen) (truncateString s maxLen) = os.take (Z.to_nat maxLen) s
  /\ Z.of_nat (String.length (truncateString s maxLen)) <= maxLen + 15
  /\ (Z.of_nat (String.length s) <= maxLen -> truncateString s maxLen = s)
  /\ (maxLen < Z.of_nat (String.length s) ->
      Z.of_nat (String.length (truncateString s maxLen)) = maxLen + 15).
Proof.
  intros Hm. unfold truncateString.
  destruct (Z.leb_spec (Z.of_nat (String.length s)) maxLen) as [Hle|Hgt].
  - repeat split; auto; lia.
  - assert (Hn : (Z.to_nat maxLen <= String.length s)%nat) by lia.
    fold (os.take (Z.to_nat maxLen) s).
    rewrite take_app_take by exact Hn.
    unfold os.take. rewrite length_app, length_substring by exact Hn.
    simpl String.length. repeat split; try lia.
Qed.

End RenderingMore.

Lemma truncateString_bounds_witness :
  0 <= 10
  /\ Z.of_nat (String.length (truncateString "this is a very long string" 10)) = 10 + 15
  /\ os.take (Z.to_nat 10) (truncateString "this is a very long string" 10)
     = "this is a ".
Proof.
  split; [lia|].
  destruct (truncateString_bounds "this is a very long string" 10 ltac:(lia))
    as (H1 & _ & _ & H4).
  split; [apply H4; simpl; lia|]. rewrite H1. reflexivity.
Defined.

Lemma escapeMarkdown_escapes_pipes_witness :
  contains "|" "plain text" = false
  /\ escapeMarkdown "plain text" = "plain text"
  /\ pipes_escaped false (escapeMarkdown "a|b") = true.
Proof.
  split; [reflexivity|].
  split; [apply (proj2 (escapeMarkdown_escapes_pipes "plain text")); reflexivity|].
  apply (proj1 (escapeMarkdown_escapes_pipes "a|b")).
Defined.

(* ================================================================== *)
(** * Further properties: the table of string tags *)
(* ================================================================== *)

Section TagsTable.
Import os_facts.

Lemma sort_insert_perm (k : string) (l : list string) : sort_insert k l ≡ₚ k :: l.
Proof.
  induction l as [|x l IH]; simpl; [reflexivity|].
  destruct (String.leb k x); [reflexivity|].
  rewrite IH. apply Permutation_swap.
Qed.

Lemma sort_insert_sorted (k : string) (l : list string) :
  Sorted String.le l -> Sorted String.le (sort_insert k l).
Proof.
  induction 1 as [|x l Hl IH Hhd]; simpl.
  - repeat constructor.
  - destruct (String.leb k x) eqn:Hkx.
    + constructor; [now constructor|]. constructor.
      unfold String.le. now rewrite Hkx.
    + assert (Hxk : String.le x k).
      { destruct (total String.le x k) as [Hle|Hle]; [exact Hle|].
        unfold String.le in Hle. now rewrite Hkx in Hle. }
      constructor; [exact IH|].
      destruct l as [|y l]; simpl.
      * now constructor.
      * destruct (String.leb k y); constructor; [exact Hxk|].
        now inversion Hhd.
Qed.

Lemma sort_Strings_perm (keys : list string) : sort_Strings keys ≡ₚ keys.
Proof.
  unfold sort_Strings. induction keys as [|k keys IH]; simpl; [reflexivity|].
  now rewrite sort_insert_perm, IH.
Qed.

Lemma sort_Strings_sorted (keys : list string) : Sorted String.le (sort_Strings keys).
Proof.
  unfold sort_Strings. induction keys as [|k keys IH]; simpl; [constructor|].
  now apply sort_insert_sorted.
Qed.

(** The order in which the keys come does not matter to the sorted
    list. *)
Lemma sort_Strings_perm_eq (l1 l2 : list string) :
  l1 ≡ₚ l2 -> sort_Strings l1 = sort_Strings l2.
Proof.
  intros Hp. apply (Sorted_unique String.le); try apply sort_Strings_sorted.
  now rewrite !sort_Strings_perm.
Qed.

Lemma collected_keys {V} (tags : list (string * V)) (acc : list string) :
  fold_left (fun keys kv => keys ++ [kv.1]) tags acc = acc ++ map fst tags.
Proof.
  revert acc. induction tags as [|kv tags IH]; intros acc; simpl.
  - now rewrite app_nil_r.
  - rewrite IH, <- app_assoc. reflexivity.
Qed.

Lemma append_rows (row : string -> string) (keys : list string) (sb : string) :
  fold_left (fun sb k => sb +:+ row k) keys sb
  = sb +:+ fold_right String.append EmptyString (map row keys).
Proof.
  revert sb. induction keys as [|k keys IH]; intros sb; simpl.
  - now rewrite string_app_nil_r.
  - rewrite IH. apply string_app_assoc.
Qed.

(** What [writeTagsToTable] adds to the builder: one row per key, the
    keys in ascending order. *)
Lemma writeTagsToTable_rows (sb : string) (tags : list (string * string)) :
  writeTagsToTable sb tags
  = sb +:+ fold_right String.append EmptyString
             (map (tag_row tags) (sort_Strings (map fst tags))).
Proof.
  unfold writeTagsToTable. destruct tags as [|kv tags].
  - simpl. now rewrite string_app_nil_r.
  - change (length (kv :: tags) =? 0)%nat with false. cbv iota.
    rewrite collected_keys. simpl app.
    apply (append_rows (tag_row (kv :: tags))).
Qed.

Lemma map_index_perm {V} (zero : V) (tags1 tags2 : list (string * V)) (k : string) :
  tags1 ≡ₚ tags2 -> NoDup (map fst tags1) ->
  map_index zero tags1 k = map_index zero tags2 k.
Proof.
  induction 1 as [|[k1 v1] l1 l2 Hp IH|[k1 v1] [k2 v2] l|l1 l2 l3 Hp1 IH1 Hp2 IH2];
    intros Hnd; simpl.
  - reflexivity.
  - apply NoDup_cons in Hnd as [_ Hnd]. now rewrite IH.
  - simpl in Hnd. apply NoDup_cons in Hnd as [Hin _].
    destruct (String.eqb_spec k2 k) as [->|]; [|reflexivity].
    destruct (String.eqb_spec k1 k) as [->|]; [|reflexivity].
    exfalso. apply Hin. now left.
  - rewrite IH1 by exact Hnd. apply IH2.
    assert (Hk : map fst l1 ≡ₚ map fst l2) by now apply fmap_Permutation.
    now rewrite <- Hk.
Qed.

(** X15. The table of string tags does not depend on the order in which the
    map is ranged over: two listings of the same tags give the same
    rows. *)
Theorem writeTagsToTable_order_independent
    (sb : string) (tags1 tags2 : list (string * string)) :
  tags1 ≡ₚ tags2 -> NoDup (map fst tags1) ->
  writeTagsToTable sb tags1 = writeTagsToTable sb tags2.
Proof.
  intros Hp Hnd. rewrite !writeTagsToTable_rows. f_equal. f_equal.
  rewrite (sort_Strings_perm_eq (map fst tags1) (map fst tags2))
    by now apply fmap_Permutation.
  apply map_ext. intros k. unfold tag_row.
  now rewrite (map_index_perm EmptyString tags1 tags2 k Hp Hnd).
Qed.

Lemma count_char_app (c : ascii) (a b : string) :
  count_char c (a +:+ b) = (count_char c a + count_char c b)%nat.
Proof.
  induction a as [|x a IH]; [reflexivity|].
  rewrite string_app_cons. simpl. rewrite IH. lia.
Qed.

Lemma count_char_absent (c : ascii) (s : string) :
  contains c s = false -> count_char c s = 0%nat.
Proof.
  induction s as [|x s IH]; simpl; [reflexivity|].
  intros [-> Hs]%orb_false_iff. now rewrite IH.
Qed.

Lemma tag_row_one_line (tags : list (string * string)) (k : string) :
  count_char "010" (tag_row tags k) = 1%nat.
Proof.
  unfold tag_row. rewrite !count_char_app.
  assert (Hline : forall x, contains "010" (escapeMarkdown x) = false).
  { intros x. unfold escapeMarkdown.
    apply ReplaceAll_keeps_absent; [|reflexivity].
    now apply ReplaceAll_removes. }
  rewrite !(count_char_absent "010" (escapeMarkdown _)) by apply Hline.
  reflexivity.
Qed.

(** X16. The builder is kept in front, and each tag takes exactly one line
    of the table, whatever bytes its key and value hold; no tag, no
    change. *)
Theorem writeTagsToTable_one_line_per_tag (sb : string) (tags : list (string * string)) :
  starts_with sb (writeTagsToTable sb tags)
  /\ count_char "010" (writeTagsToTable sb tags)
     = (count_char "010" sb + length tags)%nat
  /\ writeTagsToTable sb [] = sb.
Proof.
  rewrite writeTagsToTable_rows. split; [now eexists|]. split; [|reflexivity].
  rewrite count_char_app. f_equal.
  rewrite <- (length_map fst tags), <- (Permutation_length (sort_Strings_perm _)).
  induction (sort_Strings (map fst tags)) as [|k keys IH];
    cbn [map fold_right length]; [reflexivity|].
  now rewrite count_char_app, tag_row_one_line, IH.
Qed.


End TagsTable.

Lemma writeTagsToTable_order_independent_witness :
  let tags1 := [("b", "x|y"); ("a", "2")] in
  let tags2 := [("a", "2"); ("b", "x|y")] in
  tags1 ≡ₚ tags2 /\ NoDup (map fst tags1)
  /\ writeTagsToTable "T" tags1 = writeTagsToTable "T" tags2
  /\ writeTagsToTable "T" tags1
     = "T| a | 2 |" +:+ LF +:+ "| b | x\|y |" +:+ LF.
Proof.
  intros tags1 tags2.
  assert (Hp : tags1 ≡ₚ tags2) by apply Permutation_swap.
  assert (Hnd : NoDup (map fst tags1)).
  { apply (bool_decide_unpack _). vm_compute. exact I. }
  split; [exact Hp|]. split; [exact Hnd|].
  split; [exact (writeTagsToTable_order_independent "T" tags1 tags2 Hp Hnd)|].
  reflexivity.
Defined.

(* ================================================================== *)
(** * Further properties: the markdown of a span *)
(* ================================================================== *)

Section MarkdownMore.
Context `{Platform}.
Import os_facts.

Lemma starts_with_refl (p : string) : starts_with p p.
Proof. exists EmptyString. now rewrite string_app_nil_r. Qed.

Lemma starts_with_app (p s x : string) : starts_with p s -> starts_with p (s +:+ x).
Proof. intros [r ->]. exists (r +:+ x). apply string_app_assoc. Qed.

Lemma write_rows_app {V} (fmt : V -> string) (tags : list (string * V)) (sb : string) :
  starts_with sb (write_rows fmt sb tags).
Proof.
  unfold write_rows. revert sb. induction tags as [|kv tags IH]; intros sb; simpl.
  - apply starts_with_refl.
  - destruct (IH (sb +:+ "| " +:+ escapeMarkdown kv.1 +:+ " | " +:+ fmt kv.2
                     +:+ " |" +:+ LF)) as [r Hr].
    rewrite Hr. eexists. apply string_app_assoc.
Qed.

Lemma starts_with_write_rows {V} (fmt : V -> string) (tags : list (string * V))
    (p sb : string) :
  starts_with p sb -> starts_with p (write_rows fmt sb tags).
Proof.
  intros Hp. destruct (write_rows_app fmt tags sb) as [r ->].
  now apply starts_with_app.
Qed.

Lemma starts_with_writeTagsToTable (tags : list (string * string)) (p sb : string) :
  starts_with p sb -> starts_with p (writeTagsToTable sb tags).
Proof.
  intros Hp. rewrite writeTagsToTable_rows. now apply starts_with_app.
Qed.

(** X18. Every span is rendered between the same two marks: its markdown
    begins with the heading that names its trace and ends with the
    separator line followed by an empty line, whatever the span
    holds. *)
Theorem spanToMarkdown_framed (span : UploadSpan) :
  starts_with ("# Trace: " +:+ TraceID span +:+ LF +:+ LF) (spanToMarkdown span)
  /\ ends_with ("---" +:+ LF +:+ LF) (spanToMarkdown span).
Proof.
  split.
  - unfold spanToMarkdown. cbv zeta. rewrite string_app_nil_l.
    repeat first
      [ apply starts_with_refl
      | apply starts_with_app
      | apply starts_with_write_rows
      | apply starts_with_writeTagsToTable
      | match goal with
        | |- starts_with _ (if ?b then _ else _) => destruct b
        end ].
  - unfold spanToMarkdown. cbv zeta. eexists. reflexivity.
Qed.

End MarkdownMore.

(* ================================================================== *)
(** * Further properties: durations *)
(* ================================================================== *)

(** X19. A span shorter than a millisecond, and any span whose duration is
    negative, is shown with its exact count of microseconds: the
    conversion to nanoseconds and back loses nothing as long as it does
    not overflow. *)
Theorem formatDuration_below_millisecond (us : Z) :
  -9223372036854775 <= us < 1000 ->
  formatDuration (int64 (us * 1000)) = fmt_d us +:+ micro_sign +:+ "s".
Proof.
  intros Hus.
  assert (Hd : int64 (us * 1000) = us * 1000).
  { unfold int64.
    rewrite Z.mod_small by lia. lia. }
  rewrite Hd. unfold formatDuration, Millisecond, Duration_Microseconds.
  destruct (Z.ltb_spec (us * 1000) 1000000) as [_|Hge]; [|lia].
  now rewrite Z.quot_mul by lia.
Qed.

Lemma formatDuration_below_millisecond_witness :
  -9223372036854775 <= 500 < 1000
  /\ formatDuration (int64 (500 * 1000)) = "500" +:+ micro_sign +:+ "s".
Proof.
  split; [lia|]. exact (formatDuration_below_millisecond 500 ltac:(lia)).
Defined.

(* ================================================================== *)
(** * The file exporter on the sample platform *)
(* ================================================================== *)

Lemma sample_healthy :
  @healthy sample_platform (NewFileExporter "tmp/traces.md") empty_OS.
Proof.
  repeat split.
  - apply not_elem_of_empty.
  - intros Heq. vm_compute in Heq. discriminate.
Defined.

Lemma FileExporter_ExportSpans_closes_its_file_witness :
  let e := NewFileExporter "traces.md" in
  os.open_files traces_OS !! os.next_fd traces_OS = None
  /\ os.open_files
       (@FileExporter_ExportSpans sample_platform e Background
          [Some (span_with_id "a")] traces_OS).2
     = os.open_files traces_OS.
Proof.
  intros e.
  assert (Hfresh : os.open_files traces_OS !! os.next_fd traces_OS = None)
    by reflexivity.
  split; [exact Hfresh|].
  exact (@FileExporter_ExportSpans_closes_its_file sample_platform
           e Background [Some (span_with_id "a")] traces_OS Hfresh).
Defined.

Lemma FileExporter_ExportSpans_succeeds_witness :
  let e := NewFileExporter "tmp/traces.md" in
  let res := @FileExporter_ExportSpans sample_platform e Background
               [Some (span_with_id "a")] empty_OS in
  @healthy sample_platform e empty_OS
  /\ res.1 = None
  /\ os.ReadFile "tmp/traces.md" res.2
     = Some (@spanToMarkdown sample_platform (span_with_id "a"))
  /\ "tmp" ∈ os.dirs res.2.
Proof.
  intros e res. split; [exact sample_healthy|].
  destruct (@FileExporter_ExportSpans_succeeds sample_platform
              e Background (Some (span_with_id "a")) [] empty_OS sample_healthy)
    as (Hnil & Hfile & Hdir & _).
  split; [exact Hnil|]. split.
  - etransitivity; [exact Hfile|]. reflexivity.
  - destruct Hdir as [Hd|[Hd|Hd]]; [discriminate Hd|discriminate Hd|exact Hd].
Defined.

Lemma FileExporter_ExportSpans_twice_is_once_witness :
  let e := NewFileExporter "tmp/traces.md" in
  let first := @FileExporter_ExportSpans sample_platform e Background
                 [Some (span_with_id "a")] empty_OS in
  let second := @FileExporter_ExportSpans sample_platform e Background
                  [None; Some (span_with_id "b")] first.2 in
  let joined := @FileExporter_ExportSpans sample_platform e Background
                  [Some (span_with_id "a"); None; Some (span_with_id "b")] empty_OS in
  @healthy sample_platform e empty_OS
  /\ all_order_free [Some (span_with_id "a")]
  /\ all_order_free [None; Some (span_with_id "b")]
  /\ os.ReadFile "tmp/traces.md" second.2 = os.ReadFile "tmp/traces.md" joined.2.
Proof.
  intros e first second joined. split; [exact sample_healthy|].
  assert (Hfree1 : all_order_free [Some (span_with_id "a")]).
  { repeat constructor; simpl; lia. }
  assert (Hfree2 : all_order_free [None; Some (span_with_id "b")]).
  { repeat constructor; simpl; lia. }
  split; [exact Hfree1|]. split; [exact Hfree2|].
  destruct (@FileExporter_ExportSpans_twice_is_once sample_platform
              e Background [Some (span_with_id "a")] [None; Some (span_with_id "b")]
              empty_OS sample_healthy Hfree1 Hfree2)
    as (_ & _ & _ & Hsame).
  exact (Hsame "tmp/traces.md").
Defined.

Lemma FileExporter_ExportSpans_skips_nil_witness :
  let e := NewFileExporter "tmp/traces.md" in
  let spans := [None; Some (span_with_id "a"); None] in
  non_nil spans <> []
  /\ all_order_free spans
  /\ @FileExporter_ExportSpans sample_platform e Background spans empty_OS
     = @FileExporter_ExportSpans sample_platform e Background
         [Some (span_with_id "a")] empty_OS.
Proof.
  intros e spans.
  assert (Hne : non_nil spans <> []) by discriminate.
  assert (Hfree : all_order_free spans).
  { repeat constructor; simpl; lia. }
  split; [exact Hne|]. split; [exact Hfree|].
  exact (@FileExporter_ExportSpans_skips_nil sample_platform
           e Background spans empty_OS Hne Hfree).
Defined.

Lemma FileExporter_ExportSpans_all_nil_witness :
  let e := NewFileExporter "tmp/traces.md" in
  let res := @FileExporter_ExportSpans sample_platform e Background
               [None; None] empty_OS in
  @healthy sample_platform e empty_OS
  /\ Forall (fun x : option UploadSpan => x = None) [None; None]
  /\ res.1 = None
  /\ os.ReadFile "tmp/traces.md" res.2 = Some EmptyString
  /\ os.ReadFile "tmp/traces.md" empty_OS = None.
Proof.
  intros e res. split; [exact sample_healthy|].
  assert (Hnil : Forall (fun x : option UploadSpan => x = None) [None; None])
    by (repeat constructor).
  split; [exact Hnil|].
  destruct (@FileExporter_ExportSpans_all_nil sample_platform
              e Background None [None] empty_OS sample_healthy Hnil)
    as (Hres & Hfile & _).
  split; [exact Hres|]. split; [exact Hfile|reflexivity].
Defined.
